(** * Swarm health monitor: the check-classify-act cycle

    A shallow embedding of [swarm-health-monitor.py]: the rarity classifier,
    the seeder estimator, the schedule store ([StateManager]), the gateway to
    the remote client ([QBittorrentAPI]) and one check cycle ([run_check]).

    Conventions.
    - Python integers are [Z]; counters that only count are [nat].
    - A Python float is a binary64 value, a [spec_float] of the Standard
      Library with precision 53 and [emax] 1024; float arithmetic is the
      library's correctly rounded one.
    - A naive [datetime] is the number of microseconds since
      0001-01-01T00:00:00 ([datetime.min]), a [Z] between 0 and
      [datetime_max]; a [timedelta] is a number of microseconds.  The
      constructor [timedelta(days=...)] and the addition are embedded with
      their range checks, as CPython's [_datetime] module makes them.
    - A stored [last_checked] is the ISO text of a moment; it is kept as the
      moment, and a number outside the range of [datetime] stands for a text
      that names no date.
    - A Python [str] is kept as its UTF-8 text in a [string]; [len] and
      slices count characters, not bytes.
    - A Python dict read with [.get(key, default)] has an [option] field:
      [None] is the absent key.
    - The records the remote client returns and the documents of the store
      are typed as the Web API and the program itself write them: what the
      program does with JSON of another shape is not represented.
    - Exceptions are values of [exn]; a computation returns [Ok v] or
      [Raise e] together with the machine state reached.
    - The remote client, the clock, the shutdown flag and the disk are an
      [env]: functions the program consults.  Every HTTP call is recorded
      with its outcome, every write of the state file with its success.
    - [HTTPError] of [raise_for_status] and the decoding error of
      [response.json()] are [RequestException]s, as in requests 2.27 and
      later.
    - Of the log only the lines of the store are kept; of the report lines
      of [run_check] only the two readings of the clock they make. *)

From Stdlib Require Import ZArith String List.
From Stdlib Require Import Floats.SpecFloat.
From stdpp Require Import gmap strings list fin_maps.

Local Open Scope string_scope.
Local Open Scope list_scope.

(** ** Exceptions *)

(** Python exception classes that occur in the program.
    [RequestException] stands for the class and its subclasses. *)
Inductive exn :=
  | RequestException
  | IOError
  | JSONDecodeError
  | UnicodeDecodeError
  | AttributeError
  | TypeError
  | KeyError
  | ValueError
  | OverflowError.

Inductive result (A : Type) :=
  | Ok (a : A)
  | Raise (e : exn).
Arguments Ok {A} a.
Arguments Raise {A} e.

(** Sequencing of steps that may raise. *)
Definition and_then {A B} (r : result A) (k : A → result B) : result B :=
  match r with
  | Ok a => k a
  | Raise e => Raise e
  end.

(** ** Floats *)

Definition float : Type := spec_float.

(** [float(n)] for an integer, and the product of two floats. *)
Definition float_of_int (n : Z) : float := binary_normalize 53 1024 n 0 false.

Definition float_mul (x y : float) : float := SFmul 53 1024 x y.

Definition is_zero (x : float) : bool :=
  match x with
  | S754_zero _ => true
  | _ => false
  end.

Definition signed (negative : bool) (z : Z) : Z := if negative then (- z)%Z else z.

(** C's [modf(x, &intpart)] followed by [PyLong_FromDouble(intpart)]: the
    integral part of [x] as an integer, and its fractional part.  The
    conversion raises for a NaN and for an infinity.  A finite float
    [S754_finite s m e] is the number [(-1)^s * m * 2^e]. *)
Definition modf (x : float) : result (Z * float) :=
  match x with
  | S754_nan => Raise ValueError
  | S754_infinity _ => Raise OverflowError
  | S754_zero _ => Ok (0%Z, x)
  | S754_finite s m e =>
      if (0 <=? e)%Z then Ok (signed s (Z.shiftl (Zpos m) e), S754_zero s)
      else Ok (signed s (Z.shiftr (Zpos m) (- e)),
               binary_normalize 53 1024 (signed s (Zpos m mod 2 ^ (- e))) e s)
  end.

(** ** Dates and durations ([datetime], [timedelta]) *)

Definition microseconds_per_day : Z := 86400 * 1000000.

(** The last moment of [datetime]: 9999-12-31T23:59:59.999999, the day of
    ordinal 3652059. *)
Definition datetime_max : Z := (3652059 * microseconds_per_day - 1)%Z.

Definition in_datetime_range (t : Z) : bool :=
  ((0 <=? t) && (t <=? datetime_max))%Z.

(** [datetime.fromisoformat(text)], for the text that names the moment
    [t]: a text whose year is not between 1 and 9999 is no ISO date. *)
Definition fromisoformat (t : Z) : result Z :=
  if in_datetime_range t then Ok t else Raise ValueError.

(** The function [accum] of [timedelta]'s constructor, for a float [num]
    and the integer [factor]: the whole microseconds, and what is left over
    of one.  The integral part is multiplied exactly; the fractional part
    in float arithmetic. *)
Definition accum (num : float) (factor : Z) : result (Z * float) :=
  and_then (modf num) (λ '(intpart, fracpart),
    let sum := (intpart * factor)%Z in
    if is_zero fracpart then Ok (sum, S754_zero false)
    else
      and_then (modf (float_mul (float_of_int factor) fracpart)) (λ '(x, leftover),
        Ok ((sum + x)%Z, leftover))).

(** The left-over fraction of a microsecond (of magnitude below 1) is
    rounded to the nearest whole number and added to [x]; exactly half a
    microsecond goes to the side that makes the sum even. *)
Definition round_leftover (x : Z) (leftover_us : float) : Z :=
  match leftover_us with
  | S754_finite s m e =>
      match (2 * Zpos m ?= 2 ^ (- e))%Z with
      | Lt => x
      | Gt => (x + signed s 1)%Z
      | Eq => if Z.odd x then (x + signed s 1)%Z else x
      end
  | _ => x
  end.

Definition MAX_DELTA_DAYS : Z := 999999999.

(** [microseconds_to_delta]: a [timedelta] has between -999999999 and
    999999999 days (and a non-negative rest below one day). *)
Definition microseconds_to_delta (us : Z) : result Z :=
  let d := (us / microseconds_per_day)%Z in
  if ((- MAX_DELTA_DAYS <=? d) && (d <=? MAX_DELTA_DAYS))%Z then Ok us
  else Raise OverflowError.

(** [timedelta(days=days)] for a float, in microseconds. *)
Definition timedelta (days : float) : result Z :=
  and_then (accum days microseconds_per_day) (λ '(x, leftover_us),
    microseconds_to_delta (round_leftover x leftover_us)).

(** [dt + delta] *)
Definition datetime_add (dt delta : Z) : result Z :=
  let sum := (dt + delta)%Z in
  if in_datetime_range sum then Ok sum else Raise OverflowError.

(** ** Configuration (module-level constants read from the environment) *)

Record config := {
  CHECK_INTERVAL_DAYS : float;
  CRITICAL_SEEDERS : Z;
  RARE_SEEDERS : Z;
  LOW_SEEDERS : Z;
  RESUME_CRITICAL : bool;
  RESUME_RARE : bool;
  SET_PRIORITIES : bool
}.

(** The values used when no environment variable is set. *)
Definition default_config : config := {|
  CHECK_INTERVAL_DAYS := float_of_int 30;
  CRITICAL_SEEDERS := 1;
  RARE_SEEDERS := 2;
  LOW_SEEDERS := 5;
  RESUME_CRITICAL := true;
  RESUME_RARE := false;
  SET_PRIORITIES := true
|}.

(** ** Rarity classifier *)

Definition classify_torrent (cfg : config) (seeder_count : Z) : string :=
  if (seeder_count <=? CRITICAL_SEEDERS cfg)%Z then "CRITICAL"
  else if (seeder_count <=? RARE_SEEDERS cfg)%Z then "RARE"
  else if (seeder_count <=? LOW_SEEDERS cfg)%Z then "LOW"
  else "HEALTHY".

(** ** Schedule store *)

(** One entry of [state["torrents"]].  [last_checked] and
    [last_classification] are read with [.get], so a loaded document may lack
    them. *)
Record entry := {
  name : string;
  last_checked : option Z;
  last_seeder_count : Z;
  last_classification : option string
}.

(** The document [{"torrents": {...}, "last_full_run": ...}]. *)
Record state_doc := {
  torrents : gmap string entry;
  last_full_run : option Z
}.

Definition empty_state : state_doc :=
  {| torrents := ∅; last_full_run := None |}.

Definition set_torrents (ts : gmap string entry) (st : state_doc) : state_doc :=
  {| torrents := ts; last_full_run := last_full_run st |}.

(** Messages of the store's log lines. *)
Inductive level := DEBUG | INFO | WARNING | ERROR.

Inductive message :=
  | Loaded_state (n : nat)
  | Failed_to_load
  | Saved_state (n : nat)
  | Failed_to_save
  | Cleaned_up (n : nat).

Definition log_record : Type := level * message.

Definition get_last_checked (st : state_doc) (torrent_hash : string) : option Z :=
  match torrents st !! torrent_hash with
  | Some e => last_checked e
  | None => None
  end.

(** [now] is the value [datetime.now()] returns when the comparison is
    made.  A [last_checked] that is absent or null gives [True]. *)
Definition needs_check (st : state_doc) (now : Z)
    (torrent_hash : string) (interval_days : float) : result bool :=
  match get_last_checked st torrent_hash with
  | None => Ok true
  | Some last_checked =>
      and_then (fromisoformat last_checked) (λ last_checked_dt,
      and_then (timedelta interval_days) (λ delta,
      and_then (datetime_add last_checked_dt delta) (λ next_check,
        Ok (next_check <=? now)%Z)))
  end.

Definition update_torrent (st : state_doc) (now : Z) (torrent_hash torrent_name : string)
    (seeder_count : Z) (classification : string) : state_doc :=
  set_torrents
    (<[torrent_hash := {| name := torrent_name;
                          last_checked := Some now;
                          last_seeder_count := seeder_count;
                          last_classification := Some classification |}]>
       (torrents st)) st.

(** The hashes the list comprehension collects: keys not in [current_set]. *)
Definition removed_hashes (st : state_doc) (current_hashes : list string) : list string :=
  let current_set : gset string := list_to_set current_hashes in
  filter (λ h, h ∉ current_set) (elements (dom (torrents st))).

(** The function has no [return]: its value is Python's [None], here the
    [None] of [option nat].  The number removed only reaches the log. *)
Definition cleanup_removed_torrents (st : state_doc) (current_hashes : list string)
    : option nat * state_doc * list log_record :=
  let removed := removed_hashes st current_hashes in
  let st' := set_torrents (foldl (λ ts h, delete h ts) (torrents st) removed) st in
  let lines :=
    match removed with
    | [] => []
    | _ => [(INFO, Cleaned_up (length removed))]
    end in
  (None, st', lines).

Definition initial_stats : gmap string nat :=
  <["CRITICAL" := 0]> (<["RARE" := 0]> (<["LOW" := 0]>
    (<["HEALTHY" := 0]> (<["UNKNOWN" := 0]> ∅)))).

Definition count_entry (data : entry) (stats : gmap string nat) : gmap string nat :=
  let classification := default "UNKNOWN" (last_classification data) in
  <[classification := default 0 (stats !! classification) + 1]> stats.

Definition get_stats (st : state_doc) : gmap string nat :=
  map_fold (λ _ data stats, count_entry data stats) initial_stats (torrents st).

(** ** Records supplied by the remote client *)

(** A torrent of [/api/v2/torrents/info].  [t_hash] and [t_name] are read
    with [torrent[...]], the other keys with [.get]. *)
Record torrent := {
  t_hash : string;
  t_name : string;
  t_state : option string;
  t_num_complete : option Z;
  t_num_seeds : option Z
}.

(** A tracker of [/api/v2/torrents/trackers]. *)
Record tracker := {
  tr_num_seeds : option Z
}.

(** ** The HTTP boundary *)

(** The requests the gateway sends, by endpoint. *)
Inductive request :=
  | Login
  | TorrentsInfo
  | Trackers (torrent_hash : string)
  | Resume (torrent_hash : string)
  | TopPrio (torrent_hash : string)
  | DecreasePrio (torrent_hash : string).

(** What [response.json()] gives: the decoded list when the body is one,
    [None] when the body does not decode ([json()] then raises the
    library's [JSONDecodeError], a [RequestException]). *)
Record response := {
  status_code : Z;
  text : string;
  json_torrents : option (list torrent);
  json_trackers : option (list tracker)
}.

(** [Failed]: [session.get]/[session.post] raised a [RequestException]
    (connection error, timeout, invalid response). *)
Inductive outcome :=
  | Failed
  | Answer (resp : response).

Definition exchange : Type := request * outcome.

(** ** The world outside the program *)

Record env := {
  (** the remote client: its answer to a request, given the exchanges so far *)
  http : list exchange → request → outcome;
  (** the value of [datetime.now()] at its n-th reading *)
  clock : nat → Z;
  (** the shutdown flag as the checking loop reads it, after n torrents
      have been processed in the cycle *)
  shutdown_requested : nat → bool;
  (** whether the n-th write of the state file goes through *)
  disk_ok : nat → bool;
  (** for a write that fails: whether the file had been opened for writing,
      and so emptied, when it failed *)
  disk_emptied : nat → bool
}.

(** ** Program state: the two objects [run_check] receives, and the effects
    made so far *)

Record machine := {
  authenticated : bool;                 (* qbt._authenticated *)
  state : state_doc;                    (* state_manager.state *)
  exchanges : list exchange;            (* HTTP calls made, oldest first *)
  ticks : nat;                          (* readings of the clock *)
  writes : list (state_doc * bool);     (* save attempts: document, success *)
  file : option state_doc;              (* the document the file holds, if
                                           it holds a complete one *)
  log : list log_record
}.

Definition set_authenticated (b : bool) (m : machine) : machine :=
  {| authenticated := b; state := state m; exchanges := exchanges m;
     ticks := ticks m; writes := writes m; file := file m; log := log m |}.

Definition set_state (st : state_doc) (m : machine) : machine :=
  {| authenticated := authenticated m; state := st; exchanges := exchanges m;
     ticks := ticks m; writes := writes m; file := file m; log := log m |}.

Definition add_exchange (x : exchange) (m : machine) : machine :=
  {| authenticated := authenticated m; state := state m;
     exchanges := exchanges m ++ [x];
     ticks := ticks m; writes := writes m; file := file m; log := log m |}.

Definition add_tick (m : machine) : machine :=
  {| authenticated := authenticated m; state := state m; exchanges := exchanges m;
     ticks := S (ticks m); writes := writes m; file := file m; log := log m |}.

Definition add_write (ok emptied : bool) (m : machine) : machine :=
  {| authenticated := authenticated m; state := state m; exchanges := exchanges m;
     ticks := ticks m; writes := writes m ++ [(state m, ok)];
     file := if ok then Some (state m) else if emptied then None else file m;
     log := log m |}.

Definition add_log (lines : list log_record) (m : machine) : machine :=
  {| authenticated := authenticated m; state := state m; exchanges := exchanges m;
     ticks := ticks m; writes := writes m; file := file m; log := log m ++ lines |}.

Definition initial_machine (st : state_doc) : machine :=
  {| authenticated := false; state := st; exchanges := []; ticks := 0;
     writes := []; file := None; log := [] |}.

(** ** Computations: state passing with exceptions *)

Definition M (A : Type) : Type := machine → result A * machine.

Definition ret {A} (a : A) : M A := λ m, (Ok a, m).

Definition bind {A B} (c : M A) (k : A → M B) : M B :=
  λ m, match c m with
       | (Ok a, m') => k a m'
       | (Raise e, m') => (Raise e, m')
       end.

Definition raise {A} (e : exn) : M A := λ m, (Raise e, m).

(** A step that may raise but touches nothing. *)
Definition lift {A} (r : result A) : M A := λ m, (r, m).

(** [try: body  except requests.exceptions.RequestException: handler] *)
Definition try_except_RequestException {A} (body handler : M A) : M A :=
  λ m, match body m with
       | (Raise RequestException, m') => handler m'
       | r => r
       end.

Notation "'let*' x ':=' c 'in' k" := (bind c (λ x, k))
  (at level 10, x name, c at level 100, k at level 200).

(** ** Gateway to the remote client ([QBittorrentAPI]) *)

Section Gateway.
Variable E : env.

(** [session.get(...)] / [session.post(...)]: one exchange with the remote
    client, recorded with its outcome. *)
Definition send (r : request) : M response :=
  λ m, let o := http E (exchanges m) r in
       let m' := add_exchange (r, o) m in
       match o with
       | Failed => (Raise RequestException, m')
       | Answer resp => (Ok resp, m')
       end.

(** [response.raise_for_status()]: [HTTPError] for a 4xx or 5xx status. *)
Definition raise_for_status (resp : response) : M unit :=
  if ((400 <=? status_code resp) && (status_code resp <? 600))%Z
  then raise RequestException
  else ret tt.

Definition json {A} (body : option A) : M A :=
  match body with
  | Some v => ret v
  | None => raise RequestException
  end.

Definition get_authenticated : M bool := λ m, (Ok (authenticated m), m).

Definition put_authenticated (b : bool) : M unit :=
  λ m, (Ok tt, set_authenticated b m).

Definition login : M bool :=
  try_except_RequestException
    (let* response := send Login in
     if String.eqb (text response) "Ok."
     then let* _ := put_authenticated true in ret true
     else ret false)
    (ret false).

(** [if not self._authenticated: if not self.login(): return default];
    [body] is the rest of the method. *)
Definition ensure_login {A} (default : A) (body : M A) : M A :=
  let* a := get_authenticated in
  if a then body
  else let* ok := login in
       if ok then body else ret default.

Definition get_torrents : M (list torrent) :=
  ensure_login []
    (try_except_RequestException
       (let* response := send TorrentsInfo in
        let* _ := raise_for_status response in
        json (json_torrents response))
       (let* _ := put_authenticated false in ret [])).

Definition get_torrent_trackers (torrent_hash : string) : M (list tracker) :=
  ensure_login []
    (try_except_RequestException
       (let* response := send (Trackers torrent_hash) in
        let* _ := raise_for_status response in
        json (json_trackers response))
       (ret [])).

Definition resume_torrent (torrent_hash : string) : M bool :=
  ensure_login false
    (try_except_RequestException
       (let* response := send (Resume torrent_hash) in
        ret (status_code response =? 200)%Z)
       (ret false)).

Definition set_top_priority (torrent_hash : string) : M bool :=
  ensure_login false
    (try_except_RequestException
       (let* response := send (TopPrio torrent_hash) in
        ret (status_code response =? 200)%Z)
       (ret false)).

Definition set_rare_priority (torrent_hash : string) : M bool :=
  ensure_login false
    (try_except_RequestException
       (let* response := send (TopPrio torrent_hash) in
        if negb (status_code response =? 200)%Z then ret false
        else
          let* response := send (DecreasePrio torrent_hash) in
          ret (status_code response =? 200)%Z)
       (ret false)).

(** The body of [for _ in range(n)] in [set_low_priority]: [Some false] is
    the early [return False], [None] the loop running to its end. *)
Fixpoint decrease_times (n : nat) (torrent_hash : string) : M (option bool) :=
  match n with
  | O => ret None
  | S n' =>
      let* response := send (DecreasePrio torrent_hash) in
      if negb (status_code response =? 200)%Z then ret (Some false)
      else decrease_times n' torrent_hash
  end.

Definition set_low_priority (torrent_hash : string) : M bool :=
  ensure_login false
    (try_except_RequestException
       (let* response := send (TopPrio torrent_hash) in
        if negb (status_code response =? 200)%Z then ret false
        else
          let* early := decrease_times 2 torrent_hash in
          match early with
          | Some b => ret b
          | None => ret true
          end)
       (ret false)).

End Gateway.

(** ** Seeder estimator, store operations on the machine, and the cycle *)

Definition state_in (s : string) (l : list string) : bool :=
  existsb (String.eqb s) l.

(** [torrent.get('state') in [...]]: an absent state is in no list. *)
Definition get_state_in (s : option string) (l : list string) : bool :=
  match s with
  | Some x => state_in x l
  | None => false
  end.

Definition seeding_states : list string := ["uploading"; "stalledUP"; "forcedUP"].

Definition paused_states : list string :=
  ["pausedUP"; "pausedDL"; "stoppedUP"; "stoppedDL"].

(** What the loop keeps of a checked torrent.  The ['size'] key of the
    source (a formatted float, never read again) is left out. *)
Record torrent_info := {
  ti_hash : string;
  ti_name : string;
  ti_seeders : Z;
  ti_state : string
}.

Record buckets := {
  critical_torrents : list torrent_info;
  rare_torrents : list torrent_info;
  low_torrents : list torrent_info
}.

Definition empty_buckets : buckets :=
  {| critical_torrents := []; rare_torrents := []; low_torrents := [] |}.

(** In UTF-8 a byte of the form 10xxxxxx continues a character; every
    other byte starts one. *)
Definition continues (c : Ascii.ascii) : bool :=
  let n := Ascii.nat_of_ascii c in ((128 <=? n) && (n <? 192))%nat.

(** [len(s)]: the number of characters. *)
Fixpoint str_len (s : string) : nat :=
  match s with
  | EmptyString => 0
  | String c rest => if continues c then str_len rest else S (str_len rest)
  end.

(** [s[:k]]: the first [k] characters. *)
Fixpoint str_take (k : nat) (s : string) : string :=
  match s with
  | EmptyString => EmptyString
  | String c rest =>
      if continues c then String c (str_take k rest)
      else match k with
           | O => EmptyString
           | S k' => String c (str_take k' rest)
           end
  end.

Definition display_name (n : string) : string :=
  if (60 <? str_len n)%nat then (str_take 60 n ++ "...")%string else n.

Definition make_torrent_info (t : torrent) (seeder_count : Z) : torrent_info :=
  {| ti_hash := t_hash t;
     ti_name := display_name (t_name t);
     ti_seeders := seeder_count;
     ti_state := default "unknown" (t_state t) |}.

Definition add_to_bucket (classification : string) (info : torrent_info)
    (b : buckets) : buckets :=
  if String.eqb classification "CRITICAL" then
    {| critical_torrents := critical_torrents b ++ [info];
       rare_torrents := rare_torrents b; low_torrents := low_torrents b |}
  else if String.eqb classification "RARE" then
    {| critical_torrents := critical_torrents b;
       rare_torrents := rare_torrents b ++ [info]; low_torrents := low_torrents b |}
  else if String.eqb classification "LOW" then
    {| critical_torrents := critical_torrents b;
       rare_torrents := rare_torrents b; low_torrents := low_torrents b ++ [info] |}
  else b.

Fixpoint for_each {A S : Type} (l : list A) (body : A → S → M S) (s : S) : M S :=
  match l with
  | [] => ret s
  | x :: l' => let* s' := body x s in for_each l' body s'
  end.

Section Cycle.
Variable cfg : config.
Variable E : env.

(** [datetime.now()] *)
Definition now : M Z := λ m, (Ok (clock E (ticks m)), add_tick m).

Definition get_state : M state_doc := λ m, (Ok (state m), m).

Definition put_state (st : state_doc) : M unit := λ m, (Ok tt, set_state st m).

Definition logging (lines : list log_record) : M unit :=
  λ m, (Ok tt, add_log lines m).

(** [StateManager.needs_check] on the machine: the clock is read last, and
    only when the torrent has a last-checked time from which the moment of
    the next check can be computed. *)
Definition sm_needs_check (torrent_hash : string) (interval_days : float) : M bool :=
  let* st := get_state in
  match get_last_checked st torrent_hash with
  | None => ret true
  | Some last_checked =>
      let* last_checked_dt := lift (fromisoformat last_checked) in
      let* delta := lift (timedelta interval_days) in
      let* next_check := lift (datetime_add last_checked_dt delta) in
      let* t := now in
      ret (next_check <=? t)%Z
  end.

Definition sm_update_torrent (torrent_hash torrent_name : string)
    (seeder_count : Z) (classification : string) : M unit :=
  let* st := get_state in
  let* t := now in
  put_state (update_torrent st t torrent_hash torrent_name seeder_count classification).

Definition sm_cleanup_removed_torrents (current_hashes : list string)
    : M (option nat) :=
  let* st := get_state in
  let '(r, st', lines) := cleanup_removed_torrents st current_hashes in
  let* _ := put_state st' in
  let* _ := logging lines in
  ret r.

(** [StateManager.save_state]: an [IOError] of the write is caught and
    logged.  When [mkdir] or [open] fails the file keeps what it held; when
    the failure comes after [open(..., 'w')] the file is left without a
    complete document. *)
Definition save_state : M unit :=
  λ m, let ok := disk_ok E (length (writes m)) in
       let emptied := disk_emptied E (length (writes m)) in
       let line := if ok then (DEBUG, Saved_state (size (torrents (state m))))
                   else (ERROR, Failed_to_save) in
       (Ok tt, add_log [line] (add_write ok emptied m)).

Definition our_contribution (t : torrent) : Z :=
  if get_state_in (t_state t) seeding_states then 1 else 0.

(** [tracker['num_seeds']] *)
Definition tracker_num_seeds (tr : tracker) : M Z :=
  match tr_num_seeds tr with
  | Some n => ret n
  | None => raise KeyError
  end.

Definition max_seeds_step (tr : tracker) (max_seeds : Z) : M Z :=
  if (max_seeds <? default 0 (tr_num_seeds tr))%Z
  then tracker_num_seeds tr
  else ret max_seeds.

Definition get_seeder_count (t : torrent) : M Z :=
  let tracker_seeds := default 0%Z (t_num_complete t) in
  let connected_seeds := default 0%Z (t_num_seeds t) in
  if (0 <? tracker_seeds)%Z then ret tracker_seeds
  else if (0 <? connected_seeds)%Z then ret (connected_seeds + our_contribution t)%Z
  else
    let* trackers := get_torrent_trackers E (t_hash t) in
    let* max_seeds := for_each trackers max_seeds_step 0%Z in
    ret (if (0 <? max_seeds)%Z then max_seeds else our_contribution t).

(** The loop that splits the listing into due and skipped torrents. *)
Definition filter_step (t : torrent) (acc : list torrent * nat)
    : M (list torrent * nat) :=
  let '(torrents_to_check, skipped_count) := acc in
  let* due := sm_needs_check (t_hash t) (CHECK_INTERVAL_DAYS cfg) in
  if due then ret (torrents_to_check ++ [t], skipped_count)
  else ret (torrents_to_check, S skipped_count).

(** The checking loop; [Shutdown requested] breaks out of it. *)
Fixpoint check_each (todo : list torrent) (b : buckets) (checked_count : nat)
    : M (buckets * nat) :=
  match todo with
  | [] => ret (b, checked_count)
  | t :: rest =>
      if shutdown_requested E checked_count then ret (b, checked_count)
      else
        let* seeder_count := get_seeder_count t in
        let classification := classify_torrent cfg seeder_count in
        let* _ := sm_update_torrent (t_hash t) (t_name t) seeder_count classification in
        let checked_count := S checked_count in
        let b := add_to_bucket classification (make_torrent_info t seeder_count) b in
        let* _ := (if (checked_count mod 50 =? 0)%nat then save_state else ret tt) in
        check_each rest b checked_count
  end.

Definition priority_step (op : string → M bool) (t : torrent_info)
    (actions_taken : nat) : M nat :=
  let* done := op (ti_hash t) in
  ret (if done then S actions_taken else actions_taken).

Definition resume_step (t : torrent_info) (actions_taken : nat) : M nat :=
  if state_in (ti_state t) paused_states then
    let* done := resume_torrent E (ti_hash t) in
    ret (if done then S actions_taken else actions_taken)
  else ret actions_taken.

Definition is_nil {A} (l : list A) : bool :=
  match l with [] => true | _ => false end.

Definition apply_priorities (b : buckets) (actions_taken : nat) : M nat :=
  if SET_PRIORITIES cfg &&
     negb (is_nil (critical_torrents b) && is_nil (rare_torrents b)
           && is_nil (low_torrents b))
  then
    let* a := for_each (low_torrents b) (priority_step (set_low_priority E)) actions_taken in
    let* a := for_each (rare_torrents b) (priority_step (set_rare_priority E)) a in
    for_each (critical_torrents b) (priority_step (set_top_priority E)) a
  else ret actions_taken.

Definition apply_resumes (b : buckets) (actions_taken : nat) : M nat :=
  let* a :=
    (if RESUME_RARE cfg && negb (is_nil (rare_torrents b))
     then for_each (rare_torrents b) resume_step actions_taken
     else ret actions_taken) in
  if RESUME_CRITICAL cfg && negb (is_nil (critical_torrents b))
  then for_each (critical_torrents b) resume_step a
  else ret a.

(** Everything after the checking loop: actions, then the final save, then
    the reading of the clock for the closing report line. *)
Definition act_and_persist (b : buckets) : M unit :=
  let* a := apply_priorities b 0 in
  let* _ := apply_resumes b a in
  let* _ := save_state in
  let* _ := now in
  ret tt.

(** One check cycle.  Of the report lines only the two readings of the
    clock are kept, the first before the listing is fetched; [get_stats] is
    only called to fill report lines. *)
Definition run_check : M unit :=
  let* _ := now in
  let* listing := get_torrents E in
  if is_nil listing then ret tt
  else
    let current_hashes := map t_hash listing in
    let* _ := sm_cleanup_removed_torrents current_hashes in
    let* split := for_each listing filter_step ([], 0) in
    let '(torrents_to_check, skipped_count) := split in
    if is_nil torrents_to_check then ret tt
    else
      let* checked := check_each torrents_to_check empty_buckets 0 in
      let '(b, checked_count) := checked in
      act_and_persist b.

End Cycle.

(** ** Loading the state file ([StateManager._load_state]) *)

(** A decoded JSON document.  An object lists its keys once, in file order
    ([json.load] keeps the last of repeated keys). *)
#[local] Unset Elimination Schemes.
Inductive json_value :=
  | JNull
  | JBool (b : bool)
  | JNumber (z : Z)
  | JString (s : string)
  | JArray (items : list json_value)
  | JObject (fields : list (string * json_value)).
#[local] Set Elimination Schemes.

(** The state file as [_load_state] meets it. *)
Inductive state_file :=
  | Missing                                (* [exists()] is false *)
  | Unreadable                             (* [open] raises [IOError] *)
  | Undecodable                            (* the bytes are not text in the
                                              encoding of the locale *)
  | Contents (decoded : option json_value). (* [None]: the text is not JSON *)

Fixpoint assoc (key : string) (fields : list (string * json_value)) : option json_value :=
  match fields with
  | [] => None
  | (k, v) :: rest => if String.eqb k key then Some v else assoc key rest
  end.

(** [data.get(key, default)]: only a dict has [get]. *)
Definition py_get (data : json_value) (key : string) (default : json_value)
    : result json_value :=
  match data with
  | JObject fields => Ok (from_option id default (assoc key fields))
  | _ => Raise AttributeError
  end.

(** [len(v)] *)
Definition py_len (v : json_value) : result nat :=
  match v with
  | JString s => Ok (str_len s)
  | JArray items => Ok (length items)
  | JObject fields => Ok (length fields)
  | JNull | JBool _ | JNumber _ => Raise TypeError
  end.

Definition empty_document : json_value :=
  JObject [("torrents", JObject []); ("last_full_run", JNull)].

(** The value returned or the exception that leaves the method, with the
    lines logged.  [except (json.JSONDecodeError, IOError)] covers [open] and
    [json.load]; the [UnicodeDecodeError] of reading bytes that are not text
    and the exceptions of the [logging.info] line are of neither class. *)
Definition _load_state (f : state_file) : result json_value * list log_record :=
  match f with
  | Missing => (Ok empty_document, [])
  | Unreadable => (Ok empty_document, [(WARNING, Failed_to_load)])
  | Undecodable => (Raise UnicodeDecodeError, [])
  | Contents None => (Ok empty_document, [(WARNING, Failed_to_load)])
  | Contents (Some data) =>
      match py_get data "torrents" (JObject []) with
      | Raise e => (Raise e, [])
      | Ok ts =>
          match py_len ts with
          | Raise e => (Raise e, [])
          | Ok n => (Ok data, [(INFO, Loaded_state n)])
          end
      end
  end.

(** ** Vocabulary of the statements *)

(** The machine after some gateway calls: the session flag may have changed
    and exchanges were appended; nothing else moved. *)
Definition extend (a : bool) (new : list exchange) (m : machine) : machine :=
  {| authenticated := a; state := state m; exchanges := exchanges m ++ new;
     ticks := ticks m; writes := writes m; file := file m; log := log m |}.

(** A failed exchange: the HTTP call itself failed (connection error,
    timeout, invalid response); or the login was answered with another text
    than [Ok.]; or the answer has an error status (4xx or 5xx); or, for the
    two queries, the body of the answer does not decode. *)
Definition failed (x : exchange) : Prop :=
  match x with
  | (_, Failed) => True
  | (Login, Answer resp) => text resp ≠ "Ok."
  | (TorrentsInfo, Answer resp) =>
      (400 ≤ status_code resp < 600)%Z ∨ json_torrents resp = None
  | (Trackers _, Answer resp) =>
      (400 ≤ status_code resp < 600)%Z ∨ json_trackers resp = None
  | (Resume _, Answer resp) | (TopPrio _, Answer resp)
  | (DecreasePrio _, Answer resp) =>
      (400 ≤ status_code resp < 600)%Z
  end.

(** A gateway operation absorbs failures: it always returns a value, never
    an exception, touches only the session, and returns [safe_default]
    whenever one of the exchanges it made has failed. *)
Definition absorbs_failures {A} (op : M A) (safe_default : A) : Prop :=
  ∀ m, ∃ v a new,
    op m = (Ok v, extend a new m) ∧
    (Exists failed new → v = safe_default).


(** The largest seeder count any tracker reports, 0 when none reports one. *)
Definition max_tracker_seeds (trackers : list tracker) : Z :=
  foldr Z.max 0%Z (map (λ tr, default 0%Z (tr_num_seeds tr)) trackers).

Definition requests (xs : list exchange) : list request := map fst xs.

Definition is_priority_request (r : request) : bool :=
  match r with
  | TopPrio _ | DecreasePrio _ => true
  | _ => false
  end.

(** The priority calls the claim expects for given buckets: LOW first, then
    RARE, then CRITICAL. *)
Definition low_requests (t : torrent_info) : list request :=
  [TopPrio (ti_hash t); DecreasePrio (ti_hash t); DecreasePrio (ti_hash t)].

Definition rare_requests (t : torrent_info) : list request :=
  [TopPrio (ti_hash t); DecreasePrio (ti_hash t)].

Definition critical_requests (t : torrent_info) : list request :=
  [TopPrio (ti_hash t)].

Definition priority_requests (b : buckets) : list request :=
  flat_map low_requests (low_torrents b) ++
  flat_map rare_requests (rare_torrents b) ++
  flat_map critical_requests (critical_torrents b).

(** A remote client that answers every priority call with status 200. *)
Definition accepts_priorities (E : env) : Prop :=
  ∀ history r, is_priority_request r = true →
    ∃ resp, http E history r = Answer resp ∧ status_code resp = 200%Z.

(** Each priority operation starts with the move to the top. *)
Definition starts_with_top (t : torrent_info) (new : list exchange) : Prop :=
  ∃ o rest, new = (TopPrio (ti_hash t), o) :: rest.

Definition is_paused (t : torrent_info) : bool :=
  state_in (ti_state t) paused_states.

(** The resume calls of one bucket: one for each paused or stopped torrent. *)
Definition resume_requests (l : list torrent_info) : list request :=
  flat_map (λ t, if is_paused t then [Resume (ti_hash t)] else []) l.

(** The machine after [n] more readings of the clock. *)
Definition advance (n : nat) (m : machine) : machine :=
  {| authenticated := authenticated m; state := state m; exchanges := exchanges m;
     ticks := ticks m + n; writes := writes m; file := file m; log := log m |}.

Section Phases.
Variable cfg : config.
Variable E : env.

(** The cycle up to the checking loop: the list of due torrents, empty when
    the listing is. *)
Definition list_due : M (list torrent) :=
  let* _ := now E in
  let* listing := get_torrents E in
  if is_nil listing then ret []
  else
    let* _ := sm_cleanup_removed_torrents (map t_hash listing) in
    let* split := for_each listing (filter_step cfg E) ([], 0) in
    ret split.1.

(** What the checking loop puts in the buckets and in the store for
    torrents paired with their seeder counts, the first update reading the
    clock at [tick]. *)
Definition bucket_all (counted : list (torrent * Z)) (b : buckets) : buckets :=
  foldl (λ b tc, add_to_bucket (classify_torrent cfg tc.2)
                   (make_torrent_info tc.1 tc.2) b) b counted.

Fixpoint record_all (tick : nat) (counted : list (torrent * Z)) (st : state_doc)
    : state_doc :=
  match counted with
  | [] => st
  | (t, c) :: rest =>
      record_all (S tick) rest
        (update_torrent st (clock E tick) (t_hash t) (t_name t) c
           (classify_torrent cfg c))
  end.

End Phases.

(** The hashes of torrents paired with their seeder counts. *)
Definition counted_hashes (counted : list (torrent * Z)) : list string :=
  map (λ tc, t_hash tc.1) counted.

(** The entry [update_torrent] writes for torrent [t] at time [now] with
    seeder count [c]. *)
Definition checked_entry (cfg : config) (t : torrent) (now c : Z) : entry :=
  {| name := t_name t;
     last_checked := Some now;
     last_seeder_count := c;
     last_classification := Some (classify_torrent cfg c) |}.

(** ** Scenarios *)

(** A remote client that cannot be reached: every HTTP call fails. *)
Definition unreachable : env :=
  {| http := λ _ _, Failed;
     clock := λ n, Z.of_nat n;
     shutdown_requested := λ _, false;
     disk_ok := λ _, true;
     disk_emptied := λ _, false |}.

Definition plain_answer (status : Z) (body : string) : response :=
  {| status_code := status; text := body;
     json_torrents := None; json_trackers := None |}.

(** A client that accepts the login and every command, lists [listing] and
    reports [trackers] for every torrent. *)
Definition serving (listing : list torrent) (trackers : list tracker) : env :=
  {| http := λ _ r,
       match r with
       | Login => Answer (plain_answer 200 "Ok.")
       | TorrentsInfo =>
           Answer {| status_code := 200; text := "";
                     json_torrents := Some listing; json_trackers := None |}
       | Trackers _ =>
           Answer {| status_code := 200; text := "";
                     json_torrents := None; json_trackers := Some trackers |}
       | Resume _ | TopPrio _ | DecreasePrio _ => Answer (plain_answer 200 "")
       end;
     clock := λ n, Z.of_nat n;
     shutdown_requested := λ _, false;
     disk_ok := λ _, true;
     disk_emptied := λ _, false |}.

Definition sample_torrent (h : string) (st : string) (complete seeds : Z) : torrent :=
  {| t_hash := h; t_name := h; t_state := Some st;
     t_num_complete := Some complete; t_num_seeds := Some seeds |}.

(** A client that accepts the login and lists [listing], but answers every
    other call with status 500. *)
Definition refusing (listing : list torrent) : env :=
  {| http := λ _ r,
       match r with
       | Login => Answer (plain_answer 200 "Ok.")
       | TorrentsInfo =>
           Answer {| status_code := 200; text := "";
                     json_torrents := Some listing; json_trackers := None |}
       | _ => Answer (plain_answer 500 "")
       end;
     clock := λ n, Z.of_nat n;
     shutdown_requested := λ _, false;
     disk_ok := λ _, true;
     disk_emptied := λ _, false |}.

(** One torrent for each of CRITICAL, RARE and LOW under the default
    thresholds. *)
Definition three_tiers : list torrent :=
  [sample_torrent "C" "downloading" 1 0;
   sample_torrent "R" "downloading" 2 0;
   sample_torrent "L" "downloading" 4 0].

(** A serving client, with the shutdown flag raised once [k] torrents have
    been processed; [disk] tells whether writes of the state file succeed (a
    failing write finds the file already emptied). *)
Definition interrupted (k : nat) (disk : bool) (listing : list torrent) : env :=
  {| http := http (serving listing []);
     clock := λ n, Z.of_nat n;
     shutdown_requested := λ n, (k <=? n)%nat;
     disk_ok := λ _, disk;
     disk_emptied := λ _, true |}.

Definition five_torrents : list torrent :=
  [sample_torrent "t1" "pausedDL" 1 0;
   sample_torrent "t2" "downloading" 2 0;
   sample_torrent "t3" "downloading" 4 0;
   sample_torrent "t4" "downloading" 9 0;
   sample_torrent "t5" "pausedUP" 1 0].

(** The end-to-end scenario: default thresholds, every toggle on, and the
    torrents A, B, C with tracker totals 1, 3 and 10, each paused or not. *)
Definition all_toggles_on : config := {|
  CHECK_INTERVAL_DAYS := float_of_int 30;
  CRITICAL_SEEDERS := 1;
  RARE_SEEDERS := 2;
  LOW_SEEDERS := 5;
  RESUME_CRITICAL := true;
  RESUME_RARE := true;
  SET_PRIORITIES := true
|}.

Definition paused_or_not (p : bool) : string :=
  if p then "pausedDL" else "downloading".

Definition scenario_torrents (pA pB pC : bool) : list torrent :=
  [sample_torrent "A" (paused_or_not pA) 1 0;
   sample_torrent "B" (paused_or_not pB) 3 0;
   sample_torrent "C" (paused_or_not pC) 10 0].

Definition scenario_run (pA pB pC : bool) : result unit * machine :=
  run_check all_toggles_on (serving (scenario_torrents pA pB pC) [])
    (initial_machine empty_state).

(** ** Vocabulary of the further properties *)

(** ** Configuration from the environment *)

(** [str.lower()] on the letters A to Z; other characters are kept.  No
    character outside A to Z has a lower-case form made of the letters of
    [true] and [yes], so the membership test below agrees with Python's. *)
Definition lower_ascii (c : Ascii.ascii) : Ascii.ascii :=
  let n := Ascii.nat_of_ascii c in
  if ((65 <=? n) && (n <=? 90))%nat then Ascii.ascii_of_nat (n + 32) else c.

Fixpoint lower (s : string) : string :=
  match s with
  | EmptyString => EmptyString
  | String c rest => String (lower_ascii c) (lower rest)
  end.

(** [os.environ] is a map from names to values. *)
Definition get_env_bool (environ : gmap string string) (key : string)
    (default : bool) : bool :=
  match environ !! key with
  | None => default
  | Some val => existsb (String.eqb (lower val)) ["true"; "1"; "yes"]
  end.

(** [s * n] *)
Fixpoint str_repeat (s : string) (n : nat) : string :=
  match n with
  | O => EmptyString
  | S n' => (s ++ str_repeat s n')%string
  end.

(** The place of a tier in the order CRITICAL, RARE, LOW, HEALTHY. *)
Definition tier_rank (tier : string) : nat :=
  if String.eqb tier "CRITICAL" then 0
  else if String.eqb tier "RARE" then 1
  else if String.eqb tier "LOW" then 2
  else 3.

(** The classification [get_stats] counts an entry under. *)
Definition counted_as (data : entry) : string :=
  default "UNKNOWN" (last_classification data).

(** The number of entries counted under [tier]. *)
Definition entries_of_tier (tier : string) (ts : gmap string entry) : nat :=
  size (filter (λ kv, counted_as kv.2 = tier) ts).

Definition stats_keys : list string :=
  ["CRITICAL"; "RARE"; "LOW"; "HEALTHY"; "UNKNOWN"].
(** What [get_stats] holds under a key that counts [n] entries: the five
    tiers are always present, other keys only when an entry has them. *)
Definition stat_of (tier : string) (n : nat) : option nat :=
  if decide (tier ∈ stats_keys) then Some n
  else match n with O => None | S _ => Some n end.

(** The login is acknowledged: the answer is the text [Ok.]. *)
Definition acknowledged (o : outcome) : bool :=
  match o with
  | Answer resp => String.eqb (text resp) "Ok."
  | Failed => false
  end.

(** An HTTP call answered with status 200. *)
Definition answered_200 (o : outcome) : bool :=
  match o with
  | Answer resp => (status_code resp =? 200)%Z
  | Failed => false
  end.

(** An operation that needs a session: without one it logs in first, and
    when the login is not acknowledged it sends nothing else, returns
    [safe_default] and leaves the session unauthenticated. *)
Definition logs_in_first {A} (E : env) (op : M A) (safe_default : A) : Prop :=
  ∀ m, authenticated m = false →
    ∃ v a new,
      op m = (Ok v, extend a ((Login, http E (exchanges m) Login) :: new) m) ∧
      (acknowledged (http E (exchanges m) Login) = false →
         new = [] ∧ v = safe_default ∧ a = false).

(** The exchanges of a command made of [steps], after the exchanges
    [history]: each step is sent in its turn, and the next one only when it
    was answered with status 200. *)
Fixpoint sent (E : env) (history : list exchange) (steps : list request)
    : list exchange :=
  match steps with
  | [] => []
  | r :: rest =>
      let o := http E history r in
      (r, o) :: (if answered_200 o then sent E (history ++ [(r, o)]) rest else [])
  end.

(** A command made of the steps [full], on an established session: its
    exchanges are [sent]; the result is [true] exactly when every exchange
    was answered with 200 (then all steps were sent); the session stays
    established and nothing else changes. *)
Definition runs_steps (E : env) (op : M bool) (full : list request) : Prop :=
  ∀ m, authenticated m = true →
    op m = (Ok (forallb (λ x, answered_200 x.2) (sent E (exchanges m) full)),
            extend true (sent E (exchanges m) full) m).

(** What a tracker query returns for the outcome of its HTTP call: the
    decoded list when the call was answered without error status and the
    body decodes, else the empty list. *)
Definition trackers_of (o : outcome) : list tracker :=
  match o with
  | Failed => []
  | Answer resp =>
      if decide (400 ≤ status_code resp < 600)%Z then []
      else default [] (json_trackers resp)
  end.

(** The seeder estimate of torrent [t] on an established session, after
    the exchanges [history]: the count, and the exchanges made to find it. *)
Definition estimate (E : env) (t : torrent) (history : list exchange)
    : Z * list exchange :=
  let total := default 0%Z (t_num_complete t) in
  let connected := default 0%Z (t_num_seeds t) in
  let self := if get_state_in (t_state t) ["uploading"; "stalledUP"; "forcedUP"]
              then 1%Z else 0%Z in
  if decide (0 < total)%Z then (total, [])
  else if decide (0 < connected)%Z then ((connected + self)%Z, [])
  else
    let o := http E history (Trackers (t_hash t)) in
    let best := max_tracker_seeds (trackers_of o) in
    (if decide (0 < best)%Z then best else self, [(Trackers (t_hash t), o)]).

(** The estimates of the torrents of [todo], checked one after the other. *)
Fixpoint estimates (E : env) (todo : list torrent) (history : list exchange)
    : list Z :=
  match todo with
  | [] => []
  | t :: rest =>
      (estimate E t history).1 ::
      estimates E rest (history ++ (estimate E t history).2)
  end.

(** The number of torrents of [listing], repetitions included, that have
    a last-checked time in the store. *)
Definition stored_times (st : state_doc) (listing : list torrent) : nat :=
  length (filter (λ t, is_Some (get_last_checked st (t_hash t))) listing).


(** A client that accepts the login and answers the listing with [status]
    and a body that decodes to [body], if to anything. *)
Definition listing_answered (status : Z) (body : option (list torrent)) : env :=
  {| http := λ _ r,
       match r with
       | Login => Answer (plain_answer 200 "Ok.")
       | _ => Answer {| status_code := status; text := "";
                        json_torrents := body; json_trackers := None |}
       end;
     clock := λ n, Z.of_nat n;
     shutdown_requested := λ _, false;
     disk_ok := λ _, true;
     disk_emptied := λ _, false |}.

(** A client that accepts every call but the lowering of a priority, which
    it answers with status 409. *)
Definition lowering_refused : env :=
  {| http := λ _ r,
       match r with
       | DecreasePrio _ => Answer (plain_answer 409 "")
       | _ => Answer (plain_answer 200 "Ok.")
       end;
     clock := λ n, Z.of_nat n;
     shutdown_requested := λ _, false;
     disk_ok := λ _, true;
     disk_emptied := λ _, false |}.


(** The moment 2024-01-01T00:00:00, day 738886 of the calendar. *)
Definition new_year_2024 : Z := (738885 * microseconds_per_day)%Z.

(** The torrent a request is about. *)
Definition target (r : request) : option string :=
  match r with
  | Login | TorrentsInfo => None
  | Trackers h | Resume h | TopPrio h | DecreasePrio h => Some h
  end.

(** A priority request about torrent [t]. *)
Definition about (t : torrent_info) (r : request) : Prop :=
  is_priority_request r = true ∧ target r = Some (ti_hash t).

(** The torrents of the buckets, in the order the action phase visits them. *)
Definition bucketed (b : buckets) : list torrent_info :=
  low_torrents b ++ rare_torrents b ++ critical_torrents b.

(** The torrents of [counted] whose seeder count falls in [tier], as the
    loop keeps them. *)
Definition infos_of_tier (cfg : config) (tier : string)
    (counted : list (torrent * Z)) : list torrent_info :=
  map (λ tc, make_torrent_info tc.1 tc.2)
      (filter (λ tc, classify_torrent cfg tc.2 = tier) counted).

(** Fifty torrents, none checked before: enough for one checkpoint. *)
Definition fifty_torrents : list torrent :=
  map (λ n, sample_torrent (String (Ascii.ascii_of_nat (48 + n)) "") "downloading" 9 0)
      (seq 0 50).

(** * Properties *)

(** ** Classifier *)

Lemma classify_torrent_cases cfg c :
  classify_torrent cfg c = "CRITICAL" ∨ classify_torrent cfg c = "RARE" ∨
  classify_torrent cfg c = "LOW" ∨ classify_torrent cfg c = "HEALTHY".
Proof.
  unfold classify_torrent.
  destruct (c <=? CRITICAL_SEEDERS cfg)%Z; [by left|].
  destruct (c <=? RARE_SEEDERS cfg)%Z; [by right; left|].
  destruct (c <=? LOW_SEEDERS cfg)%Z; [by right; right; left|].
  by right; right; right.
Qed.

(** C1: for every seeder count, under any thresholds, [classify_torrent]
    returns one of CRITICAL, RARE, LOW, HEALTHY and never UNKNOWN; with the
    default thresholds 0 and 1 are CRITICAL, 2 is RARE, 5 is LOW and 6 is
    HEALTHY. *)
Theorem classify_torrent_total :
  (∀ cfg c,
     classify_torrent cfg c ∈ ["CRITICAL"; "RARE"; "LOW"; "HEALTHY"] ∧
     classify_torrent cfg c ≠ "UNKNOWN") ∧
  classify_torrent default_config 0 = "CRITICAL" ∧
  classify_torrent default_config 1 = "CRITICAL" ∧
  classify_torrent default_config 2 = "RARE" ∧
  classify_torrent default_config 5 = "LOW" ∧
  classify_torrent default_config 6 = "HEALTHY".
Proof.
  split; [|by repeat split].
  intros cfg c.
  destruct (classify_torrent_cases cfg c) as [H|[H|[H|H]]]; rewrite H;
    (split; [set_solver | discriminate]).
Qed.

(** ** Schedule store *)

(** *** Whole numbers as floats *)

Lemma digits2_pos_iter p k :
  digits2_pos (Pos.iter xO p k) = (digits2_pos p + k)%positive.
Proof.
  induction k as [|k IH] using Pos.peano_ind.
  - cbn. lia.
  - rewrite Pos.iter_succ. cbn. rewrite IH. lia.
Qed.

Lemma Zpos_iter p k : Zpos (Pos.iter xO p k) = (Zpos p * 2 ^ Zpos k)%Z.
Proof.
  induction k as [|k IH] using Pos.peano_ind.
  - cbn. lia.
  - rewrite Pos.iter_succ, Pos2Z.inj_xO, IH, Pos2Z.inj_succ, Z.pow_succ_r by lia. lia.
Qed.

Lemma digits2_pos_lower p : (2 ^ (Zpos (digits2_pos p) - 1) ≤ Zpos p)%Z.
Proof.
  induction p as [p IH|p IH|]; cbn [digits2_pos]; [| |cbn; lia].
  - rewrite Pos2Z.inj_succ.
    replace (Z.succ (Zpos (digits2_pos p)) - 1)%Z
      with (Z.succ (Zpos (digits2_pos p) - 1)) by lia.
    rewrite Z.pow_succ_r by lia. lia.
  - rewrite Pos2Z.inj_succ.
    replace (Z.succ (Zpos (digits2_pos p)) - 1)%Z
      with (Z.succ (Zpos (digits2_pos p) - 1)) by lia.
    rewrite Z.pow_succ_r by lia. lia.
Qed.

Lemma digits2_pos_small p : (Zpos p < 2 ^ 52)%Z → (Zpos (digits2_pos p) ≤ 52)%Z.
Proof.
  intros Hp. pose proof (digits2_pos_lower p) as Hl.
  destruct (Z_le_gt_dec (Zpos (digits2_pos p)) 52) as [|Hgt]; [done|].
  exfalso.
  assert (2 ^ 52 ≤ 2 ^ (Zpos (digits2_pos p) - 1))%Z by (apply Z.pow_le_mono_r; lia).
  lia.
Qed.

(** A whole number below 2^52 is a float as it is: its digits, moved up to
    fill the 53 bits of the mantissa. *)
Lemma binary_round_whole s p :
  (Zpos p < 2 ^ 52)%Z →
  binary_round 53 1024 s p 0 =
    S754_finite s (Pos.iter xO p (Z.to_pos (53 - Zpos (digits2_pos p))))
      (Zpos (digits2_pos p) - 53).
Proof.
  intros Hp. pose proof (digits2_pos_small p Hp) as Hd.
  unfold binary_round, fexp, emin.
  rewrite Z.add_0_r, Z.max_l by lia.
  unfold shl_align.
  destruct (Zpos (digits2_pos p) - 53 - 0)%Z as [|q|q] eqn:Hq; [lia | lia |].
  assert (Hk : Z.to_pos (53 - Zpos (digits2_pos p)) = q) by lia.
  rewrite Hk.
  unfold binary_round_aux, shr_fexp, fexp, emin. cbn [Zdigits2].
  rewrite digits2_pos_iter.
  replace (Z.max (Zpos (digits2_pos p + q) + (Zpos (digits2_pos p) - 53) - 53)
             (3 - 1024 - 53) - (Zpos (digits2_pos p) - 53))%Z with 0%Z by lia.
  cbn [shr shr_record_of_loc shr_m loc_of_shr_record round_nearest_even Zdigits2].
  rewrite digits2_pos_iter.
  replace (Z.max (Zpos (digits2_pos p + q) + (Zpos (digits2_pos p) - 53) - 53)
             (3 - 1024 - 53) - (Zpos (digits2_pos p) - 53))%Z with 0%Z by lia.
  cbn [shr shr_m].
  destruct (Zpos (digits2_pos p) - 53 <=? 1024 - 53)%Z eqn:Hle; [done|].
  apply Z.leb_gt in Hle. lia.
Qed.

Lemma modf_whole s p :
  (Zpos p < 2 ^ 52)%Z →
  modf (binary_round 53 1024 s p 0) = Ok (signed s (Zpos p), S754_zero s).
Proof.
  intros Hp. pose proof (digits2_pos_small p Hp) as Hd.
  rewrite binary_round_whole by done. unfold modf.
  destruct (0 <=? Zpos (digits2_pos p) - 53)%Z eqn:He; [apply Z.leb_le in He; lia|].
  rewrite Zpos_iter.
  replace (Zpos (Z.to_pos (53 - Zpos (digits2_pos p))))
    with (- (Zpos (digits2_pos p) - 53))%Z by lia.
  rewrite Z.shiftr_div_pow2 by lia.
  rewrite Z.div_mul by (apply Z.pow_nonzero; lia).
  rewrite Z.mod_mul by (apply Z.pow_nonzero; lia).
  by destruct s.
Qed.

Lemma modf_float_of_int d :
  (Z.abs d < 2 ^ 52)%Z →
  ∃ z, modf (float_of_int d) = Ok (d, z) ∧ is_zero z = true.
Proof.
  intros Hd. unfold float_of_int, binary_normalize.
  destruct d as [|p|p].
  - by eexists.
  - rewrite modf_whole by (cbn in Hd; lia). by eexists.
  - rewrite modf_whole by (cbn in Hd; lia). by eexists.
Qed.

(** A whole number of days is that many times 86 400 000 000 microseconds,
    up to 999 999 999 days either way. *)
Lemma timedelta_whole_days d :
  (Z.abs d < 2 ^ 52)%Z →
  timedelta (float_of_int d) =
    if decide (-999999999 ≤ d ≤ 999999999)%Z then Ok (d * 86400000000)%Z
    else Raise OverflowError.
Proof.
  intros Hd. destruct (modf_float_of_int d Hd) as (z & Hm & Hz).
  unfold timedelta, accum. rewrite Hm. cbn [and_then]. rewrite Hz. cbn [and_then].
  unfold round_leftover, microseconds_to_delta, MAX_DELTA_DAYS.
  change microseconds_per_day with 86400000000%Z.
  rewrite Z.div_mul by lia.
  destruct (andb _ _) eqn:Hb; case_decide as Hr; try done; exfalso.
  - apply andb_true_iff in Hb as [?%Z.leb_le ?%Z.leb_le]. lia.
  - apply andb_false_iff in Hb as [?%Z.leb_gt|?%Z.leb_gt]; lia.
Qed.

Lemma in_datetime_range_true t :
  in_datetime_range t = true ↔ (0 ≤ t ≤ datetime_max)%Z.
Proof.
  unfold in_datetime_range. rewrite andb_true_iff, !Z.leb_le. tauto.
Qed.

Lemma datetime_add_eq dt delta :
  datetime_add dt delta =
    if decide (0 ≤ dt + delta ≤ datetime_max)%Z then Ok (dt + delta)%Z
    else Raise OverflowError.
Proof.
  unfold datetime_add. case_decide as Hr.
  - apply in_datetime_range_true in Hr. by rewrite Hr.
  - destruct (in_datetime_range _) eqn:Hb; [|done].
    by apply in_datetime_range_true in Hb.
Qed.

(** [needs_check] for a torrent that has a last-checked time. *)
Lemma needs_check_entry st now h D e T :
  torrents st !! h = Some e → last_checked e = Some T →
  (0 ≤ T ≤ datetime_max)%Z →
  needs_check st now h D =
    and_then (timedelta D) (λ delta,
      if decide (0 ≤ T + delta ≤ datetime_max)%Z then Ok (T + delta <=? now)%Z
      else Raise OverflowError).
Proof.
  intros He HT Hr. unfold needs_check, get_last_checked. rewrite He, HT.
  unfold fromisoformat. apply in_datetime_range_true in Hr. rewrite Hr. cbn [and_then].
  destruct (timedelta D) as [delta|x]; [|done]. cbn [and_then].
  rewrite datetime_add_eq. by case_decide.
Qed.




Lemma lookup_foldl_delete (m : gmap string entry) (js : list string) (k : string) :
  foldl (λ ts h, delete h ts) m js !! k = if decide (k ∈ js) then None else m !! k.
Proof.
  revert m. induction js as [|j js IH]; intros m; cbn.
  - case_decide; [set_solver | done].
  - rewrite IH. destruct (decide (k = j)) as [->|Hne].
    + rewrite lookup_delete_eq.
      rewrite (decide_True (P := j ∈ j :: js)) by (apply elem_of_cons; by left).
      by destruct (decide (j ∈ js)).
    + rewrite lookup_delete_ne by done.
      destruct (decide (k ∈ js)) as [Hin|Hnin].
      * rewrite decide_True; [done | apply elem_of_cons; by right].
      * rewrite decide_False; [done|].
        by intros [?|?]%elem_of_cons.
Qed.

Lemma elem_of_removed_hashes st current h :
  h ∈ removed_hashes st current ↔ is_Some (torrents st !! h) ∧ h ∉ current.
Proof.
  unfold removed_hashes. rewrite list_elem_of_filter, elem_of_elements, elem_of_dom.
  rewrite elem_of_list_to_set. tauto.
Qed.

Lemma removed_hashes_NoDup st current : NoDup (removed_hashes st current).
Proof. apply NoDup_filter, NoDup_elements. Qed.

Lemma cleanup_lookup st current h :
  torrents (cleanup_removed_torrents st current).1.2 !! h =
  if decide (h ∈ current) then torrents st !! h else None.
Proof.
  cbn. rewrite lookup_foldl_delete.
  destruct (decide (h ∈ removed_hashes st current)) as [Hin|Hnin].
  - apply elem_of_removed_hashes in Hin as [_ Hnc]. by rewrite decide_False.
  - case_decide as Hc; [done|].
    destruct (torrents st !! h) eqn:Hl; [|done].
    exfalso. apply Hnin, elem_of_removed_hashes. by rewrite Hl.
Qed.

Lemma length_removed_hashes st current :
  length (removed_hashes st current) =
  size (dom (torrents st) ∖ (list_to_set current : gset string)).
Proof.
  unfold size, set_size; cbn.
  apply Permutation_length, NoDup_Permutation.
  - apply removed_hashes_NoDup.
  - apply NoDup_elements.
  - intros h. rewrite elem_of_removed_hashes, elem_of_elements.
    rewrite elem_of_difference, elem_of_dom, elem_of_list_to_set. tauto.
Qed.

(** C6, as the code has it: [cleanup_removed_torrents] keeps exactly the
    entries whose hash is in the current list, with their contents, so the
    keys left are the former keys that are also current; [last_full_run] is
    untouched.  The method returns nothing; the number of entries removed is
    written to the log, and only when it is positive. *)
Theorem cleanup_removed_torrents_spec (st : state_doc) (current : list string) :
  let current_set : gset string := list_to_set current in
  let removed := size (dom (torrents st) ∖ current_set) in
  let '(r, st', lines) := cleanup_removed_torrents st current in
  dom (torrents st') = dom (torrents st) ∩ current_set ∧
  (∀ h, torrents st' !! h = if decide (h ∈ current) then torrents st !! h else None) ∧
  last_full_run st' = last_full_run st ∧
  r = None ∧
  lines = match removed with
          | O => []
          | S _ => [(INFO, Cleaned_up removed)]
          end.
Proof.
  intros current_set removed.
  pose proof (cleanup_lookup st current) as Hlook.
  destruct (cleanup_removed_torrents st current) as [[r st'] lines] eqn:Hc.
  cbn in Hlook.
  unfold cleanup_removed_torrents in Hc. injection Hc as <- <- <-.
  repeat split.
  - apply set_eq. intros h.
    rewrite elem_of_intersection, !elem_of_dom, Hlook.
    unfold current_set. rewrite elem_of_list_to_set.
    case_decide; [tauto|]. split; [by intros [? ?] | tauto].
  - exact Hlook.
  - pose proof (length_removed_hashes st current) as Hlen.
    fold current_set in Hlen. fold removed in Hlen.
    destruct (removed_hashes st current); cbn in Hlen; by rewrite <- Hlen.
Qed.

(** The claim that the method returns the number removed fails: with two
    entries of which one is stale, one entry goes and the value is [None]. *)
Lemma cleanup_removed_torrents_returns_none :
  let st := update_torrent (update_torrent empty_state 5 "a" "A" 1 "CRITICAL")
              6 "b" "B" 9 "HEALTHY" in
  let '(r, st', _) := cleanup_removed_torrents st ["b"] in
  size (torrents st) - size (torrents st') = 1 ∧ r ≠ Some 1.
Proof. vm_compute. split; [reflexivity | discriminate]. Qed.

(** ** Loading the state file *)

(** C9: a missing file gives the empty document, and so do an unreadable
    file and a text that is not JSON, each with a warning; but a JSON
    document that is not an object (here the empty array) makes
    [_load_state] raise [AttributeError], and an object whose [torrents]
    is a number makes it raise [TypeError]; so does, with
    [UnicodeDecodeError], a file whose bytes are not text. *)
Theorem load_state_array_raises :
  _load_state Missing = (Ok empty_document, []) ∧
  _load_state Unreadable = (Ok empty_document, [(WARNING, Failed_to_load)]) ∧
  _load_state (Contents None) = (Ok empty_document, [(WARNING, Failed_to_load)]) ∧
  _load_state (Contents (Some (JArray []))) = (Raise AttributeError, []) ∧
  _load_state (Contents (Some (JObject [("torrents", JNumber 5)]))) = (Raise TypeError, []) ∧
  _load_state Undecodable = (Raise UnicodeDecodeError, []).
Proof. by repeat split. Qed.

(** ** Gateway *)

Lemma extend_nil m : extend (authenticated m) [] m = m.
Proof. destruct m. unfold extend; cbn. by rewrite app_nil_r. Qed.

Lemma extend_extend a b new1 new2 m :
  extend b new2 (extend a new1 m) = extend b (new1 ++ new2) m.
Proof. unfold extend; cbn. by rewrite app_assoc. Qed.

Lemma set_authenticated_extend b a new m :
  set_authenticated b (extend a new m) = extend b new m.
Proof. reflexivity. Qed.

Lemma send_spec E r m :
  let o := http E (exchanges m) r in
  send E r m = (match o with Failed => Raise RequestException | Answer resp => Ok resp end,
                extend (authenticated m) [(r, o)] m).
Proof. unfold send. cbn. by destruct (http E (exchanges m) r). Qed.

Ltac unfold_gateway :=
  unfold get_torrents, get_torrent_trackers, resume_torrent,
    set_top_priority, set_rare_priority, set_low_priority, decrease_times,
    ensure_login, login, try_except_RequestException, bind, ret, raise,
    get_authenticated, put_authenticated, raise_for_status, json.

(** One step of running a gateway method on a symbolic machine: name the
    outcome of the next HTTP call, or split on the next test. *)
Ltac exec_step :=
  match goal with
  | |- context [send ?E ?r ?m] => rewrite (send_spec E r m); cbn zeta
  | |- context [match http ?E ?h ?r with _ => _ end] =>
      let Ho := fresh "Ho" in
      destruct (http E h r) as [|?resp] eqn:Ho
  | |- context [if ?b then _ else _] => destruct b eqn:?
  | |- context [match ?o with Some _ => _ | None => _ end] => destruct o eqn:?
  end.

Ltac exec_gateway :=
  unfold_gateway;
  repeat (exec_step; cbn -[extend]);
  rewrite ?set_authenticated_extend, ?extend_extend.

(** The tests made along a run, as propositions. *)
Ltac bool_facts :=
  repeat match goal with
         | H : negb _ = true |- _ => apply negb_true_iff in H
         | H : negb _ = false |- _ => apply negb_false_iff in H
         | H : (_ && _)%bool = true |- _ => apply andb_true_iff in H as [? ?]
         | H : (_ && _)%bool = false |- _ => apply andb_false_iff in H
         | H : (_ <=? _)%Z = true |- _ => apply Z.leb_le in H
         | H : (_ <=? _)%Z = false |- _ => apply Z.leb_gt in H
         | H : (_ <? _)%Z = true |- _ => apply Z.ltb_lt in H
         | H : (_ <? _)%Z = false |- _ => apply Z.ltb_ge in H
         | H : (_ =? _)%Z = true |- _ => apply Z.eqb_eq in H
         | H : (_ =? _)%Z = false |- _ => apply Z.eqb_neq in H
         | H : String.eqb _ _ = true |- _ => apply String.eqb_eq in H
         | H : String.eqb _ _ = false |- _ => apply String.eqb_neq in H
         end.

(** The exchange of [H] has failed: either the run shows it has not, or
    the result is the safe default. *)
Ltac failure_case H :=
  cbn in H; bool_facts;
  solve [ done | lia | congruence | exfalso; lia | exfalso; congruence
        | apply Z.eqb_neq; lia
        | destruct H as [H|H];
          solve [ exfalso; lia | congruence | exfalso; congruence | lia ] ].

Ltac no_failure H :=
  repeat (apply Exists_cons in H as [H|H]; [failure_case H|]);
  by apply Exists_nil in H.

Ltac absorb :=
  let m := fresh "m" in
  intros m; exec_gateway;
  eexists _, _, _;
  (split; [first [reflexivity | rewrite <- (extend_nil m) at 1; reflexivity]|]);
  let H := fresh "H" in
  intros H; first [reflexivity | no_failure H].

Lemma login_absorbs E : absorbs_failures (login E) false.
Proof. absorb. Qed.

Lemma get_torrents_absorbs E : absorbs_failures (get_torrents E) [].
Proof. absorb. Qed.

Lemma get_torrent_trackers_absorbs E h :
  absorbs_failures (get_torrent_trackers E h) [].
Proof. absorb. Qed.

Lemma resume_torrent_absorbs E h : absorbs_failures (resume_torrent E h) false.
Proof. absorb. Qed.

Lemma set_top_priority_absorbs E h : absorbs_failures (set_top_priority E h) false.
Proof. absorb. Qed.

Lemma set_rare_priority_absorbs E h : absorbs_failures (set_rare_priority E h) false.
Proof. absorb. Qed.

Lemma set_low_priority_absorbs E h : absorbs_failures (set_low_priority E h) false.
Proof. absorb. Qed.

(** C8: each of the seven gateway operations, whatever the remote client
    does, returns a value and never an exception, and returns its safe
    default ([false], or the empty list for the two queries) whenever one
    of the exchanges it made has failed: the HTTP call raised (no
    connection, timeout, invalid response), the login was not acknowledged,
    the answer has a 4xx or 5xx status, or the body of the answer to a
    query does not decode. *)
Theorem gateway_absorbs_failures (E : env) :
  absorbs_failures (login E) false ∧
  absorbs_failures (get_torrents E) [] ∧
  (∀ h, absorbs_failures (get_torrent_trackers E h) []) ∧
  (∀ h, absorbs_failures (resume_torrent E h) false) ∧
  (∀ h, absorbs_failures (set_top_priority E h) false) ∧
  (∀ h, absorbs_failures (set_rare_priority E h) false) ∧
  (∀ h, absorbs_failures (set_low_priority E h) false).
Proof.
  split; [apply login_absorbs|].
  split; [apply get_torrents_absorbs|].
  split; [apply get_torrent_trackers_absorbs|].
  split; [apply resume_torrent_absorbs|].
  split; [apply set_top_priority_absorbs|].
  split; [apply set_rare_priority_absorbs | apply set_low_priority_absorbs].
Qed.

Lemma gateway_absorbs_failures_witness :
  let m := initial_machine empty_state in
  (get_torrents unreachable m).1 = Ok [] ∧
  (get_torrents (listing_answered 503 (Some three_tiers)) m).1 = Ok [] ∧
  (get_torrents (listing_answered 200 None) m).1 = Ok [] ∧
  (get_torrent_trackers (listing_answered 404 None) "h" m).1 = Ok [].
Proof.
  intros m. split; [|split; [|split]].
  - destruct (gateway_absorbs_failures unreachable) as (_ & Hget & _).
    destruct (Hget m) as (v & a & new & Heq & Hfail).
    rewrite Heq. cbn. f_equal. apply Hfail.
    assert (Hnew : new = [(Login, Failed)]).
    { vm_compute in Heq. by injection Heq as _ _ <-. }
    rewrite Hnew. by apply Exists_cons_hd.
  - destruct (gateway_absorbs_failures (listing_answered 503 (Some three_tiers)))
      as (_ & Hget & _).
    destruct (Hget m) as (v & a & new & Heq & Hfail).
    rewrite Heq. cbn. f_equal. apply Hfail.
    assert (Hnew : Exists failed (exchanges (get_torrents
                     (listing_answered 503 (Some three_tiers)) m).2)).
    { apply Exists_cons_tl, Exists_cons_hd. left. cbn. lia. }
    rewrite Heq in Hnew. exact Hnew.
  - destruct (gateway_absorbs_failures (listing_answered 200 None)) as (_ & Hget & _).
    destruct (Hget m) as (v & a & new & Heq & Hfail).
    rewrite Heq. cbn. f_equal. apply Hfail.
    assert (Hnew : Exists failed (exchanges (get_torrents
                     (listing_answered 200 None) m).2)).
    { apply Exists_cons_tl, Exists_cons_hd. by right. }
    rewrite Heq in Hnew. exact Hnew.
  - destruct (gateway_absorbs_failures (listing_answered 404 None)) as (_ & _ & Htr & _).
    destruct (Htr "h" m) as (v & a & new & Heq & Hfail).
    rewrite Heq. cbn. f_equal. apply Hfail.
    assert (Hnew : Exists failed (exchanges (get_torrent_trackers
                     (listing_answered 404 None) "h" m).2)).
    { apply Exists_cons_tl, Exists_cons_hd. left. cbn. lia. }
    rewrite Heq in Hnew. exact Hnew.
Defined.

(** ** Seeder estimator *)

Lemma max_seeds_loop trackers (acc : Z) m :
  (0 ≤ acc)%Z →
  for_each trackers max_seeds_step acc m = (Ok (Z.max acc (max_tracker_seeds trackers)), m).
Proof.
  revert acc. induction trackers as [|tr trackers IH]; intros acc Hacc; cbn.
  - unfold ret. by rewrite Z.max_l.
  - unfold bind, max_seeds_step, tracker_num_seeds.
    fold (max_tracker_seeds trackers).
    destruct (tr_num_seeds tr) as [n|]; cbn.
    + destruct (acc <? n)%Z eqn:Hlt; cbn.
      * apply Z.ltb_lt in Hlt. rewrite IH by lia. f_equal. f_equal. lia.
      * apply Z.ltb_ge in Hlt. rewrite IH by lia. f_equal. f_equal. lia.
    + destruct (acc <? 0)%Z eqn:Hlt; cbn.
      * apply Z.ltb_lt in Hlt. lia.
      * rewrite IH by lia. f_equal. f_equal. lia.
Qed.

Lemma max_tracker_seeds_nonneg trackers : (0 ≤ max_tracker_seeds trackers)%Z.
Proof. induction trackers; cbn; [done|]. unfold max_tracker_seeds in *. lia. Qed.

Lemma our_contribution_bounds t : (0 ≤ our_contribution t ≤ 1)%Z.
Proof. unfold our_contribution. destruct (get_state_in _ _); lia. Qed.

(** The estimator in one equation: what it returns and the machine it
    leaves, in terms of the tracker query. *)
Lemma get_seeder_count_eq E t m :
  get_seeder_count E t m =
  if (0 <? default 0 (t_num_complete t))%Z then (Ok (default 0%Z (t_num_complete t)), m)
  else if (0 <? default 0 (t_num_seeds t))%Z
       then (Ok (default 0 (t_num_seeds t) + our_contribution t)%Z, m)
  else match get_torrent_trackers E (t_hash t) m with
       | (Ok trackers, m') =>
           (Ok (if (0 <? max_tracker_seeds trackers)%Z
                then max_tracker_seeds trackers else our_contribution t), m')
       | (Raise e, m') => (Raise e, m')
       end.
Proof.
  unfold get_seeder_count.
  destruct (0 <? default 0 (t_num_complete t))%Z; [done|].
  destruct (0 <? default 0 (t_num_seeds t))%Z; [done|].
  unfold bind at 1.
  destruct (get_torrent_trackers E (t_hash t) m) as [[trackers|e] m']; [|done].
  unfold bind. rewrite max_seeds_loop by done. cbn.
  by rewrite Z.max_r by apply max_tracker_seeds_nonneg.
Qed.

(** C2: [get_seeder_count] always returns a non-negative count.  A positive
    tracker total is returned as it is, with no call to the gateway;
    otherwise a positive connected count is returned plus the own
    contribution (1 in the states uploading, stalledUP, forcedUP, else 0),
    again with no call; otherwise the trackers are queried and the result is
    the largest count they report or, when none is positive, the own
    contribution. *)
Theorem get_seeder_count_fallback (E : env) (t : torrent) (m : machine) :
  let tracker_seeds := default 0%Z (t_num_complete t) in
  let connected_seeds := default 0%Z (t_num_seeds t) in
  let self := if get_state_in (t_state t) ["uploading"; "stalledUP"; "forcedUP"]
              then 1%Z else 0%Z in
  ∃ c m',
    get_seeder_count E t m = (Ok c, m') ∧
    (0 ≤ c)%Z ∧
    ((0 < tracker_seeds)%Z → c = tracker_seeds ∧ m' = m) ∧
    ((tracker_seeds ≤ 0)%Z → (0 < connected_seeds)%Z →
       c = (connected_seeds + self)%Z ∧ m' = m) ∧
    ((tracker_seeds ≤ 0)%Z → (connected_seeds ≤ 0)%Z →
       ∃ trackers,
         get_torrent_trackers E (t_hash t) m = (Ok trackers, m') ∧
         c = if (0 <? max_tracker_seeds trackers)%Z
             then max_tracker_seeds trackers else self).
Proof.
  intros tracker_seeds connected_seeds self.
  rewrite get_seeder_count_eq.
  fold tracker_seeds connected_seeds.
  change (our_contribution t) with self.
  assert (Hself : (0 ≤ self)%Z) by apply our_contribution_bounds.
  destruct (0 <? tracker_seeds)%Z eqn:H1.
  { apply Z.ltb_lt in H1. eexists _, _. split; [reflexivity|].
    repeat split; first [lia | done]. }
  apply Z.ltb_ge in H1.
  destruct (0 <? connected_seeds)%Z eqn:H2.
  { apply Z.ltb_lt in H2. eexists _, _. split; [reflexivity|].
    repeat split; first [lia | done]. }
  apply Z.ltb_ge in H2.
  destruct (get_torrent_trackers_absorbs E (t_hash t) m) as (trackers & a & new & Heq & _).
  rewrite Heq. eexists _, _. split; [reflexivity|].
  split; [|split; [lia | split; [lia|]]].
  - pose proof (max_tracker_seeds_nonneg trackers).
    destruct (0 <? max_tracker_seeds trackers)%Z; lia.
  - intros _ _. by exists trackers.
Qed.

Lemma get_seeder_count_fallback_witness :
  let E := serving [] [{| tr_num_seeds := Some 0%Z |}] in
  let m := set_authenticated true (initial_machine empty_state) in
  get_seeder_count E (sample_torrent "a" "pausedDL" 5 0) m = (Ok 5%Z, m) ∧
  get_seeder_count E (sample_torrent "b" "stalledUP" 0 3) m = (Ok 4%Z, m) ∧
  (get_seeder_count E (sample_torrent "c" "uploading" 0 0) m).1 = Ok 1%Z ∧
  (get_seeder_count E (sample_torrent "d" "pausedDL" 0 0) m).1 = Ok 0%Z.
Proof.
  intros E m. split; [|split; [|split]].
  - destruct (get_seeder_count_fallback E (sample_torrent "a" "pausedDL" 5 0) m)
      as (c & m' & -> & _ & H1 & _).
    by destruct H1 as [-> ->]; [cbn; lia|].
  - destruct (get_seeder_count_fallback E (sample_torrent "b" "stalledUP" 0 3) m)
      as (c & m' & -> & _ & _ & H2 & _).
    by destruct H2 as [-> ->]; [cbn; lia | cbn; lia |].
  - destruct (get_seeder_count_fallback E (sample_torrent "c" "uploading" 0 0) m)
      as (c & m' & -> & _ & _ & _ & H3).
    destruct H3 as (trackers & Hq & ->); [cbn; lia | cbn; lia |].
    vm_compute in Hq. by injection Hq as <- _.
  - destruct (get_seeder_count_fallback E (sample_torrent "d" "pausedDL" 0 0) m)
      as (c & m' & -> & _ & _ & _ & H3).
    destruct H3 as (trackers & Hq & ->); [cbn; lia | cbn; lia |].
    vm_compute in Hq. by injection Hq as <- _.
Defined.

(** ** Gateway operations on an established session *)

Ltac session H :=
  unfold_gateway; cbn -[extend]; rewrite H;
  repeat (exec_step; cbn -[extend]; rewrite ?H);
  rewrite ?set_authenticated_extend, ?extend_extend.

Lemma get_torrent_trackers_session E h m :
  authenticated m = true →
  ∃ v o, get_torrent_trackers E h m = (Ok v, extend true [(Trackers h, o)] m).
Proof. intros H. session H; by eexists _, _. Qed.

(** The tracker query on an established session, in one equation. *)
Lemma get_torrent_trackers_eq E h m :
  authenticated m = true →
  get_torrent_trackers E h m =
    (Ok (trackers_of (http E (exchanges m) (Trackers h))),
     extend true [(Trackers h, http E (exchanges m) (Trackers h))] m).
Proof.
  intros H. unfold trackers_of.
  session H; bool_facts; try case_decide; first [reflexivity | lia].
Qed.

(** The estimator on an established session, in one equation. *)
Lemma get_seeder_count_estimate E t m :
  authenticated m = true →
  get_seeder_count E t m =
    (Ok (estimate E t (exchanges m)).1, extend true (estimate E t (exchanges m)).2 m).
Proof.
  intros Hm. rewrite get_seeder_count_eq. unfold estimate.
  change (if get_state_in (t_state t) ["uploading"; "stalledUP"; "forcedUP"]
          then 1%Z else 0%Z) with (our_contribution t).
  destruct (0 <? default 0 (t_num_complete t))%Z eqn:H1.
  { apply Z.ltb_lt in H1. rewrite decide_True by done. cbn [fst snd].
    by rewrite <- Hm, extend_nil. }
  apply Z.ltb_ge in H1. rewrite decide_False by lia.
  destruct (0 <? default 0 (t_num_seeds t))%Z eqn:H2.
  { apply Z.ltb_lt in H2. rewrite decide_True by done. cbn [fst snd].
    by rewrite <- Hm, extend_nil. }
  apply Z.ltb_ge in H2. rewrite decide_False by lia.
  rewrite get_torrent_trackers_eq by done. cbn [fst snd].
  destruct (0 <? max_tracker_seeds _)%Z eqn:H3.
  - apply Z.ltb_lt in H3. by rewrite decide_True.
  - apply Z.ltb_ge in H3. by rewrite decide_False by lia.
Qed.

Lemma resume_torrent_session E h m :
  authenticated m = true →
  ∃ v o, resume_torrent E h m = (Ok v, extend true [(Resume h, o)] m).
Proof. intros H. session H; by eexists _, _. Qed.

Lemma set_top_priority_session E h m :
  authenticated m = true →
  ∃ v o, set_top_priority E h m = (Ok v, extend true [(TopPrio h, o)] m).
Proof. intros H. session H; by eexists _, _. Qed.

Lemma set_rare_priority_session E h m :
  authenticated m = true →
  ∃ v o rest, set_rare_priority E h m = (Ok v, extend true ((TopPrio h, o) :: rest) m).
Proof. intros H. session H; by eexists _, _, _. Qed.

Lemma set_low_priority_session E h m :
  authenticated m = true →
  ∃ v o rest, set_low_priority E h m = (Ok v, extend true ((TopPrio h, o) :: rest) m).
Proof. intros H. session H; by eexists _, _, _. Qed.

Lemma get_torrents_session E m :
  ∃ listing a new,
    get_torrents E m = (Ok listing, extend a new m) ∧
    (is_nil listing = false → a = true) ∧
    Forall (λ x, is_priority_request x.1 = false) new.
Proof.
  exec_gateway; eexists _, _, _;
    (split; [first [reflexivity | rewrite <- (extend_nil m) at 1; reflexivity]|]);
    (split; [first [done | by intros _] | by repeat constructor]).
Qed.

(** With a client that accepts priority calls, the composite operations
    run to their end. *)
Ltac accepted Hacc H :=
  unfold_gateway; cbn -[extend]; rewrite H;
  repeat (match goal with
          | |- context [send ?E ?r ?m] =>
              let Hs := fresh "Hs" in
              rewrite (send_spec E r m); cbn zeta;
              destruct (Hacc (exchanges m) r eq_refl) as (? & -> & Hs);
              rewrite ?Hs
          end; cbn -[extend]; rewrite ?H);
  rewrite ?set_authenticated_extend, ?extend_extend.

Lemma set_top_priority_accepted E h m :
  accepts_priorities E → authenticated m = true →
  ∃ new, set_top_priority E h m = (Ok true, extend true new m) ∧
         requests new = [TopPrio h].
Proof. intros Hacc H. accepted Hacc H. by eexists. Qed.

Lemma set_rare_priority_accepted E h m :
  accepts_priorities E → authenticated m = true →
  ∃ new, set_rare_priority E h m = (Ok true, extend true new m) ∧
         requests new = [TopPrio h; DecreasePrio h].
Proof. intros Hacc H. accepted Hacc H. by eexists. Qed.

Lemma set_low_priority_accepted E h m :
  accepts_priorities E → authenticated m = true →
  ∃ new, set_low_priority E h m = (Ok true, extend true new m) ∧
         requests new = [TopPrio h; DecreasePrio h; DecreasePrio h].
Proof. intros Hacc H. accepted Hacc H. by eexists. Qed.

(** ** Loops over an established session *)

Lemma for_each_session {A S} (R : A → list exchange → Prop)
    (body : A → S → M S) (l : list A) :
  (∀ x s m, authenticated m = true →
     ∃ s' new, body x s m = (Ok s', extend true new m) ∧ R x new) →
  ∀ s m, authenticated m = true →
    ∃ s' news, for_each l body s m = (Ok s', extend true (concat news) m) ∧
               Forall2 R l news.
Proof.
  intros Hbody. induction l as [|x l IH]; intros s m Hm; cbn.
  - exists s, []. split; [|constructor].
    unfold ret. cbn. by rewrite <- Hm, extend_nil.
  - destruct (Hbody x s m Hm) as (s1 & new & Hx & HR).
    unfold bind. rewrite Hx.
    destruct (IH s1 (extend true new m) eq_refl) as (s' & news & Hl & HRs).
    rewrite Hl, extend_extend.
    exists s', (new :: news). split; [done | by constructor].
Qed.

Lemma requests_app xs ys : requests (xs ++ ys) = requests xs ++ requests ys.
Proof. apply map_app. Qed.

Lemma requests_concat_flat_map {A} (f : A → list request) l news :
  Forall2 (λ x new, requests new = f x) l news →
  requests (concat news) = flat_map f l.
Proof.
  induction 1 as [|x new l news Hx _ IH]; cbn; [done|].
  by rewrite requests_app, Hx, IH.
Qed.

Lemma requests_concat_elem {A} (f : A → request) l news x :
  Forall2 (λ y new, f y ∈ requests new) l news →
  x ∈ l → f x ∈ requests (concat news).
Proof.
  induction 1 as [|y new l news Hy _ IH]; cbn; intros Hx.
  - by apply elem_of_nil in Hx.
  - rewrite requests_app, elem_of_app.
    apply elem_of_cons in Hx as [->|Hx]; [by left | right; by apply IH].
Qed.

Section PhaseLemmas.
Variable cfg : config.
Variable E : env.

Lemma starts_with_top_elem t new :
  starts_with_top t new → TopPrio (ti_hash t) ∈ requests new.
Proof. intros (o & rest & ->). cbn. by left. Qed.

Lemma priority_step_session (op : string → M bool) t a m :
  (∀ h m, authenticated m = true →
     ∃ v o rest, op h m = (Ok v, extend true ((TopPrio h, o) :: rest) m)) →
  authenticated m = true →
  ∃ a' new, priority_step op t a m = (Ok a', extend true new m) ∧
            starts_with_top t new.
Proof.
  intros Hop Hm. destruct (Hop (ti_hash t) m Hm) as (v & o & rest & Heq).
  unfold priority_step, bind. rewrite Heq. cbn.
  eexists _, _. split; [reflexivity|]. by eexists _, _.
Qed.

Lemma set_top_priority_starts h m :
  authenticated m = true →
  ∃ v o rest, set_top_priority E h m = (Ok v, extend true ((TopPrio h, o) :: rest) m).
Proof.
  intros Hm. destruct (set_top_priority_session E h m Hm) as (v & o & Heq).
  by exists v, o, [].
Qed.

Lemma priority_loop_session (op : string → M bool) l a m :
  (∀ h m, authenticated m = true →
     ∃ v o rest, op h m = (Ok v, extend true ((TopPrio h, o) :: rest) m)) →
  authenticated m = true →
  ∃ a' new,
    for_each l (priority_step op) a m = (Ok a', extend true new m) ∧
    ∀ t, t ∈ l → TopPrio (ti_hash t) ∈ requests new.
Proof.
  intros Hop Hm.
  destruct (for_each_session starts_with_top (priority_step op) l
              (λ t a m, priority_step_session op t a m Hop) a m Hm)
    as (a' & news & Heq & HR).
  exists a', (concat news). split; [done|].
  intros t Ht. eapply (requests_concat_elem (λ t, TopPrio (ti_hash t))); [|done].
  eapply Forall2_impl; [exact HR|]. apply starts_with_top_elem.
Qed.

Lemma apply_priorities_session b a m :
  authenticated m = true →
  ∃ a' new,
    apply_priorities cfg E b a m = (Ok a', extend true new m) ∧
    (SET_PRIORITIES cfg = true →
     ∀ t, t ∈ low_torrents b ++ rare_torrents b ++ critical_torrents b →
          TopPrio (ti_hash t) ∈ requests new).
Proof.
  intros Hm. unfold apply_priorities.
  destruct (SET_PRIORITIES cfg && _) eqn:Hcond.
  - destruct (priority_loop_session (set_low_priority E) (low_torrents b) a m
                (set_low_priority_session E) Hm) as (a1 & n1 & H1 & R1).
    unfold bind. rewrite H1.
    destruct (priority_loop_session (set_rare_priority E) (rare_torrents b) a1
                (extend true n1 m) (set_rare_priority_session E) eq_refl)
      as (a2 & n2 & H2 & R2).
    rewrite H2.
    destruct (priority_loop_session (set_top_priority E) (critical_torrents b) a2
                (extend true n2 (extend true n1 m)) set_top_priority_starts eq_refl)
      as (a3 & n3 & H3 & R3).
    rewrite H3, !extend_extend.
    eexists _, _. split; [reflexivity|].
    intros _ t Ht. rewrite !requests_app, !elem_of_app.
    apply elem_of_app in Ht as [Ht|Ht]; [|apply elem_of_app in Ht as [Ht|Ht]]; auto.
  - exists a, []. split.
    + unfold ret. by rewrite <- Hm, extend_nil.
    + intros Hset t Ht. rewrite Hset in Hcond. cbn in Hcond.
      apply negb_false_iff in Hcond.
      destruct (critical_torrents b), (rare_torrents b), (low_torrents b);
        try discriminate. by apply elem_of_nil in Ht.
Qed.

Lemma get_seeder_count_session t m :
  authenticated m = true →
  ∃ c new, get_seeder_count E t m = (Ok c, extend true new m) ∧
           Forall (λ x, is_priority_request x.1 = false) new.
Proof.
  intros Hm. rewrite get_seeder_count_eq.
  destruct (0 <? default 0 (t_num_complete t))%Z.
  { eexists _, []. split; [|constructor]. by rewrite <- Hm, extend_nil. }
  destruct (0 <? default 0 (t_num_seeds t))%Z.
  { eexists _, []. split; [|constructor]. by rewrite <- Hm, extend_nil. }
  destruct (get_torrent_trackers_session E (t_hash t) m Hm) as (v & o & ->).
  eexists _, _. split; [reflexivity|]. by repeat constructor.
Qed.

Lemma check_each_stop t rest b n m :
  shutdown_requested E n = true →
  check_each cfg E (t :: rest) b n m = (Ok (b, n), m).
Proof. intros H. cbn. by rewrite H. Qed.

Lemma estimate_trail t history :
  Forall (λ x : exchange, is_priority_request x.1 = false) (estimate E t history).2.
Proof. unfold estimate. repeat case_decide; by repeat constructor. Qed.

(** One turn of the checking loop on an established session: the torrent
    is recorded and bucketed with its estimate. *)
Lemma check_each_turn t rest b n m :
  authenticated m = true →
  shutdown_requested E n = false →
  ∃ c m1 new,
    check_each cfg E (t :: rest) b n m =
      check_each cfg E rest
        (add_to_bucket (classify_torrent cfg c) (make_torrent_info t c) b) (S n) m1 ∧
    authenticated m1 = true ∧
    state m1 = update_torrent (state m) (clock E (ticks m)) (t_hash t) (t_name t) c
                 (classify_torrent cfg c) ∧
    ticks m1 = S (ticks m) ∧
    exchanges m1 = exchanges m ++ new ∧
    Forall (λ x, is_priority_request x.1 = false) new ∧
    c = (estimate E t (exchanges m)).1 ∧
    new = (estimate E t (exchanges m)).2.
Proof.
  intros Hm Hgo.
  pose proof (get_seeder_count_estimate E t m Hm) as Hc.
  pose proof (estimate_trail t (exchanges m)) as Hnew.
  cbn [check_each]. rewrite Hgo. unfold bind at 1. rewrite Hc.
  unfold bind at 1. cbn -[Nat.modulo check_each estimate].
  destruct (S n mod 50 =? 0)%nat.
  - eexists _, _, _. split; [reflexivity|]. by repeat split.
  - eexists _, _, _. split; [reflexivity|]. by repeat split.
Qed.

Lemma check_each_spec todo : ∀ b n m k,
  authenticated m = true → (k ≤ length todo)%nat →
  (∀ i, (i < k)%nat → shutdown_requested E (n + i) = false) →
  ((k < length todo)%nat → shutdown_requested E (n + k) = true) →
  ∃ counts m' new,
    length counts = k ∧
    check_each cfg E todo b n m =
      (Ok (bucket_all cfg (zip (take k todo) counts) b, n + k), m') ∧
    authenticated m' = true ∧
    state m' = record_all cfg E (ticks m) (zip (take k todo) counts) (state m) ∧
    ticks m' = ticks m + k ∧
    exchanges m' = exchanges m ++ new ∧
    Forall (λ x, is_priority_request x.1 = false) new ∧
    counts = estimates E (take k todo) (exchanges m).
Proof.
  induction todo as [|t rest IH]; intros b n m k Hm Hk Hgo Hstop.
  - cbn in Hk. assert (k = 0) as -> by lia.
    exists [], m, []. rewrite Nat.add_0_r, app_nil_r. by repeat split.
  - destruct k as [|k].
    + exists [], m, []. rewrite Nat.add_0_r, app_nil_r.
      repeat split; try done.
      apply check_each_stop. rewrite <- (Nat.add_0_r n). apply Hstop. cbn; lia.
    + destruct (check_each_turn t rest b n m Hm)
        as (c & m1 & new1 & Heq & Ha & Hs & Ht & Hx & Hn & Hc & Hnew1).
      { rewrite <- (Nat.add_0_r n). apply Hgo. lia. }
      destruct (IH (add_to_bucket (classify_torrent cfg c) (make_torrent_info t c) b)
                  (S n) m1 k Ha)
        as (counts & m' & new & Hlen & Heq' & Ha' & Hs' & Ht' & Hx' & Hn' & Hcounts).
      { cbn in Hk. lia. }
      { intros i Hi. replace (S n + i) with (n + S i) by lia. apply Hgo. lia. }
      { intros Hlt. replace (S n + k) with (n + S k) by lia. apply Hstop. cbn. lia. }
      exists (c :: counts), m', (new1 ++ new).
      split; [cbn; lia|].
      split; [rewrite Heq, Heq'; cbn; do 3 f_equal; lia|].
      split; [done|].
      split; [rewrite Hs', Hs, Ht; done|].
      split; [lia|].
      split; [rewrite Hx', Hx; by rewrite app_assoc|].
      split; [by apply Forall_app|].
      cbn [take estimates]. rewrite Hcounts, Hx, Hc, Hnew1. done.
Qed.

End PhaseLemmas.

(** ** The action phase *)

Section ActLemmas.
Variable cfg : config.
Variable E : env.

Lemma is_nil_true {A} (l : list A) : is_nil l = true → l = [].
Proof. by destruct l. Qed.

Lemma resume_step_session t a m :
  authenticated m = true →
  ∃ a' new, resume_step E t a m = (Ok a', extend true new m) ∧
            requests new = if is_paused t then [Resume (ti_hash t)] else [].
Proof.
  intros Hm. unfold resume_step, is_paused.
  destruct (state_in (ti_state t) paused_states).
  - destruct (resume_torrent_session E (ti_hash t) m Hm) as (v & o & Heq).
    unfold bind. rewrite Heq. by eexists _, _.
  - exists a, []. split; [|done]. unfold ret. by rewrite <- Hm, extend_nil.
Qed.

Lemma resume_loop_session l a m :
  authenticated m = true →
  ∃ a' new, for_each l (resume_step E) a m = (Ok a', extend true new m) ∧
            requests new = resume_requests l.
Proof.
  intros Hm.
  destruct (for_each_session
              (λ t new, requests new = if is_paused t then [Resume (ti_hash t)] else [])
              (resume_step E) l resume_step_session a m Hm)
    as (a' & news & Heq & HR).
  exists a', (concat news). split; [done|].
  by apply (requests_concat_flat_map
              (λ t, if is_paused t then [Resume (ti_hash t)] else [])).
Qed.

Lemma apply_resumes_session b a m :
  authenticated m = true →
  ∃ a' new,
    apply_resumes cfg E b a m = (Ok a', extend true new m) ∧
    requests new =
      (if RESUME_RARE cfg then resume_requests (rare_torrents b) else []) ++
      (if RESUME_CRITICAL cfg then resume_requests (critical_torrents b) else []).
Proof.
  intros Hm. unfold apply_resumes, bind.
  assert (∃ a1 new1,
            (if RESUME_RARE cfg && negb (is_nil (rare_torrents b))
             then for_each (rare_torrents b) (resume_step E) a
             else ret a) m = (Ok a1, extend true new1 m) ∧
            requests new1 =
              if RESUME_RARE cfg then resume_requests (rare_torrents b) else [])
    as (a1 & new1 & -> & Hr1).
  { destruct (RESUME_RARE cfg); cbn.
    - destruct (is_nil (rare_torrents b)) eqn:Hb; cbn.
      + apply is_nil_true in Hb as ->.
        exists a, []. split; [|done]. unfold ret. by rewrite <- Hm, extend_nil.
      + by apply resume_loop_session.
    - exists a, []. split; [|done]. unfold ret. by rewrite <- Hm, extend_nil. }
  assert (∃ a2 new2,
            (if RESUME_CRITICAL cfg && negb (is_nil (critical_torrents b))
             then for_each (critical_torrents b) (resume_step E) a1
             else ret a1) (extend true new1 m) =
              (Ok a2, extend true new2 (extend true new1 m)) ∧
            requests new2 =
              if RESUME_CRITICAL cfg then resume_requests (critical_torrents b) else [])
    as (a2 & new2 & -> & Hr2).
  { destruct (RESUME_CRITICAL cfg); cbn.
    - destruct (is_nil (critical_torrents b)) eqn:Hb; cbn.
      + apply is_nil_true in Hb as ->.
        exists a1, []. split; [|done]. unfold ret, extend; cbn. by rewrite app_nil_r.
      + by apply resume_loop_session.
    - exists a1, []. split; [|done]. unfold ret, extend; cbn. by rewrite app_nil_r. }
  rewrite extend_extend. eexists _, _. split; [reflexivity|].
  by rewrite requests_app, Hr1, Hr2.
Qed.

(** The action phase, given what [apply_priorities] does. *)
Lemma act_and_persist_session b m :
  authenticated m = true →
  ∃ a new_p new_r m',
    apply_priorities cfg E b 0 m = (Ok a, extend true new_p m) ∧
    act_and_persist cfg E b m = (Ok tt, m') ∧
    state m' = state m ∧
    exchanges m' = exchanges m ++ new_p ++ new_r ∧
    requests new_r =
      (if RESUME_RARE cfg then resume_requests (rare_torrents b) else []) ++
      (if RESUME_CRITICAL cfg then resume_requests (critical_torrents b) else []) ∧
    writes m' = writes m ++ [(state m, disk_ok E (length (writes m)))] ∧
    file m' = if disk_ok E (length (writes m)) then Some (state m)
              else if disk_emptied E (length (writes m)) then None else file m.
Proof.
  intros Hm.
  destruct (apply_priorities_session cfg E b 0 m Hm) as (a & new_p & Hp & _).
  destruct (apply_resumes_session b a (extend true new_p m) eq_refl)
    as (a' & new_r & Hr & Hreq).
  exists a, new_p, new_r. eexists. split; [done|].
  unfold act_and_persist, bind. rewrite Hp, Hr, extend_extend.
  split; [reflexivity|]. by repeat split.
Qed.

Lemma priority_loop_accepted (op : string → M bool) (f : torrent_info → list request)
    l a m :
  (∀ t m, authenticated m = true →
     ∃ new, op (ti_hash t) m = (Ok true, extend true new m) ∧ requests new = f t) →
  authenticated m = true →
  ∃ a' new, for_each l (priority_step op) a m = (Ok a', extend true new m) ∧
            requests new = flat_map f l.
Proof.
  intros Hop Hm.
  destruct (for_each_session (λ t new, requests new = f t) (priority_step op) l)
    with (s := a) (m := m) as (a' & news & Heq & HR); [|done|].
  { intros t s m0 Hm0. destruct (Hop t m0 Hm0) as (new & Hx & Hreq).
    unfold priority_step, bind. rewrite Hx. by eexists _, _. }
  exists a', (concat news). split; [done|].
  by apply requests_concat_flat_map.
Qed.

Lemma apply_priorities_accepted b a m :
  accepts_priorities E → SET_PRIORITIES cfg = true →
  authenticated m = true →
  ∃ a' new, apply_priorities cfg E b a m = (Ok a', extend true new m) ∧
            requests new = priority_requests b.
Proof.
  intros Hacc Hset Hm. unfold apply_priorities. rewrite Hset. cbn [andb].
  destruct (negb _) eqn:Hcond.
  - destruct (priority_loop_accepted (set_low_priority E) low_requests
                (low_torrents b) a m) as (a1 & n1 & H1 & R1); [|done|].
    { intros t m0 Hm0. by apply set_low_priority_accepted. }
    unfold bind. rewrite H1.
    destruct (priority_loop_accepted (set_rare_priority E) rare_requests
                (rare_torrents b) a1 (extend true n1 m)) as (a2 & n2 & H2 & R2); [|done|].
    { intros t m0 Hm0. by apply set_rare_priority_accepted. }
    rewrite H2.
    destruct (priority_loop_accepted (set_top_priority E) critical_requests
                (critical_torrents b) a2 (extend true n2 (extend true n1 m)))
      as (a3 & n3 & H3 & R3); [|done|].
    { intros t m0 Hm0. by apply set_top_priority_accepted. }
    rewrite H3, !extend_extend. eexists _, _. split; [reflexivity|].
    unfold priority_requests. by rewrite !requests_app, R1, R2, R3.
  - apply negb_false_iff in Hcond.
    destruct (critical_torrents b) eqn:Hc, (rare_torrents b) eqn:Hr,
             (low_torrents b) eqn:Hl; try discriminate.
    exists a, []. split.
    + unfold ret. by rewrite <- Hm, extend_nil.
    + unfold priority_requests. by rewrite Hc, Hr, Hl.
Qed.

(** ** The cycle before the checking loop *)

Lemma advance_0 m : advance 0 m = m.
Proof. destruct m. unfold advance; cbn. by rewrite Nat.add_0_r. Qed.

Lemma advance_advance n k m : advance k (advance n m) = advance (n + k) m.
Proof. unfold advance; cbn. by rewrite Nat.add_assoc. Qed.

Lemma add_tick_advance m : add_tick m = advance 1 m.
Proof. unfold add_tick, advance. f_equal. lia. Qed.

Lemma modf_raises x e : modf x = Raise e → e = ValueError ∨ e = OverflowError.
Proof.
  destruct x as [s|s| |s mx ex]; cbn; try discriminate.
  - intros [= <-]. by right.
  - intros [= <-]. by left.
  - by destruct (0 <=? ex)%Z.
Qed.

Lemma microseconds_to_delta_raises us e :
  microseconds_to_delta us = Raise e → e = OverflowError.
Proof.
  unfold microseconds_to_delta. destruct (andb _ _); [discriminate|]. by intros [= <-].
Qed.

(** What [timedelta] and [needs_check] can raise. *)
Lemma timedelta_raises D e : timedelta D = Raise e → e = ValueError ∨ e = OverflowError.
Proof.
  unfold timedelta, accum.
  destruct (modf D) as [[i f]|x] eqn:Hm; cbn [and_then].
  - destruct (is_zero f); cbn [and_then].
    + intros H. right. by eapply microseconds_to_delta_raises.
    + destruct (modf (float_mul _ f)) as [[x l]|x] eqn:Hm2; cbn [and_then].
      * intros H. right. by eapply microseconds_to_delta_raises.
      * intros [= <-]. by eapply modf_raises.
  - intros [= <-]. by eapply modf_raises.
Qed.

Lemma needs_check_raises st now h D e :
  needs_check st now h D = Raise e →
  (e = ValueError ∨ e = OverflowError) ∧
  is_Some (torrents st !! h) ∧
  ∀ now', needs_check st now' h D = Raise e.
Proof.
  unfold needs_check, get_last_checked.
  destruct (torrents st !! h) as [en|]; [|discriminate].
  destruct (last_checked en) as [T|]; [|discriminate].
  unfold fromisoformat, datetime_add.
  destruct (in_datetime_range T); cbn [and_then].
  - destruct (timedelta D) as [delta|x] eqn:Hd; cbn [and_then].
    + destruct (in_datetime_range (T + delta)); cbn [and_then]; [discriminate|].
      intros [= <-]. split; [by right|]. by split; [eexists|].
    + intros [= <-]. split; [by eapply timedelta_raises|]. by split; [eexists|].
  - intros [= <-]. split; [by left|]. by split; [eexists|].
Qed.

(** [sm_needs_check] is [needs_check] at the next reading of the clock,
    which is made only when the moment of the next check was computed. *)
Lemma sm_needs_check_eq h d m :
  sm_needs_check E h d m =
    match get_last_checked (state m) h with
    | None => (Ok true, m)
    | Some _ =>
        match needs_check (state m) (clock E (ticks m)) h d with
        | Ok due => (Ok due, advance 1 m)
        | Raise e => (Raise e, m)
        end
    end.
Proof.
  unfold sm_needs_check, needs_check, bind, get_state, lift, now, ret.
  destruct (get_last_checked (state m) h) as [T|]; [|done].
  destruct (fromisoformat T) as [dt|x]; [|done]. cbn [and_then].
  destruct (timedelta d) as [delta|x]; [|done]. cbn [and_then].
  destruct (datetime_add dt delta) as [next|x]; [|done]. cbn [and_then].
  by rewrite add_tick_advance.
Qed.

Lemma sm_needs_check_cases h d m :
  (∃ e, sm_needs_check E h d m = (Raise e, m) ∧
        (e = ValueError ∨ e = OverflowError) ∧
        ∀ now, needs_check (state m) now h d = Raise e) ∨
  (∃ (due : bool) n,
     sm_needs_check E h d m = (Ok due, advance n m) ∧
     (due = false → is_Some (torrents (state m) !! h))).
Proof.
  rewrite sm_needs_check_eq.
  destruct (get_last_checked (state m) h) as [T|] eqn:Hl.
  - destruct (needs_check (state m) (clock E (ticks m)) h d) as [due|e] eqn:Hn.
    + right. exists due, 1. split; [done|]. intros _.
      unfold get_last_checked in Hl. by destruct (torrents (state m) !! h).
    + left. exists e. split; [done|].
      apply needs_check_raises in Hn as (? & _ & ?). by split.
  - right. exists true, 0. by rewrite advance_0.
Qed.

(** The loop that selects the due torrents: it reads the clock and nothing
    else; it stops at the first torrent for which the date arithmetic
    raises; a torrent it skips has an entry. *)
Lemma filter_loop l : ∀ acc s m,
  ∃ n,
    (∃ e t, for_each l (filter_step cfg E) (acc, s) m = (Raise e, advance n m) ∧
            (e = ValueError ∨ e = OverflowError) ∧ t ∈ l ∧
            ∀ now, needs_check (state m) now (t_hash t) (CHECK_INTERVAL_DAYS cfg)
                   = Raise e) ∨
    (∃ due s',
       for_each l (filter_step cfg E) (acc, s) m = (Ok (acc ++ due, s'), advance n m) ∧
       (∀ t, t ∈ due → t ∈ l) ∧
       (∀ t, t ∈ l → t ∈ due ∨ is_Some (torrents (state m) !! t_hash t))).
Proof.
  induction l as [|t l IH]; intros acc s m; cbn [for_each].
  - exists 0. right. exists [], s. rewrite app_nil_r, advance_0.
    split; [done|]. split; intros t Ht; by apply elem_of_nil in Ht.
  - unfold bind. unfold filter_step at 1 3. unfold bind.
    destruct (sm_needs_check_cases (t_hash t) (CHECK_INTERVAL_DAYS cfg) m)
      as [(e & -> & He & Hraise) | (due & n & -> & Hentry)].
    { exists 0. left. exists e, t. rewrite advance_0.
      split; [done|]. split; [done|]. split; [by left | done]. }
    destruct due; unfold ret.
    + destruct (IH (acc ++ [t]) s (advance n m))
        as (n' & [(e & t' & -> & He & Hin & Hraise) | (due' & s' & -> & Hin & Hall)]).
      * exists (n + n'). left. exists e, t'. rewrite advance_advance.
        split; [done|]. split; [done|]. split; [by right | done].
      * exists (n + n'). right. exists (t :: due'), s'.
        rewrite advance_advance, <- app_assoc. split; [done|]. split.
        -- intros t' [->|Ht']%elem_of_cons; [by left | right; by apply Hin].
        -- intros t' [->|Ht']%elem_of_cons; [left; by left|].
           destruct (Hall t' Ht') as [?|?]; [left; by right | by right].
    + destruct (IH acc (S s) (advance n m))
        as (n' & [(e & t' & -> & He & Hin & Hraise) | (due' & s' & -> & Hin & Hall)]).
      * exists (n + n'). left. exists e, t'. rewrite advance_advance.
        split; [done|]. split; [done|]. split; [by right | done].
      * exists (n + n'). right. exists due', s'.
        rewrite advance_advance. split; [done|]. split.
        -- intros t' Ht'. right. by apply Hin.
        -- intros t' [->|Ht']%elem_of_cons; [right; by apply Hentry|].
           by apply Hall.
Qed.

(** The gateway does not look at the clock. *)
Lemma get_torrents_advance n m :
  get_torrents E (advance n m) =
    ((get_torrents E m).1, advance n (get_torrents E m).2).
Proof.
  unfold_gateway; cbn;
    repeat (exec_step; unfold extend, advance in *; cbn in *);
    first [reflexivity | congruence].
Qed.

Lemma list_due_spec m due m1 :
  list_due cfg E m = (Ok due, m1) →
  (is_nil due = false → authenticated m1 = true) ∧
  (∃ new, exchanges m1 = exchanges m ++ new ∧
          Forall (λ x, is_priority_request x.1 = false) new) ∧
  (∀ t, t ∈ due → torrents (state m1) !! t_hash t = torrents (state m) !! t_hash t).
Proof.
  unfold list_due. unfold bind at 1. unfold now at 1.
  unfold bind at 1.
  destruct (get_torrents_session E (add_tick m)) as (listing & a & new & -> & Ha & Hnew).
  destruct (is_nil listing) eqn:Hnil.
  - unfold ret. intros [= <- <-]. split; [done|].
    split; [by exists new|]. intros t Ht. by apply elem_of_nil in Ht.
  - specialize (Ha eq_refl) as ->.
    unfold bind at 1. unfold sm_cleanup_removed_torrents, bind, get_state.
    pose proof (cleanup_lookup (state m) (map t_hash listing)) as Hlook.
    cbn [extend state add_tick].
    destruct (cleanup_removed_torrents (state m) (map t_hash listing))
      as [[r st'] lines]. cbn in Hlook.
    cbn -[for_each].
    match goal with |- context [for_each listing _ _ ?m0] =>
      destruct (filter_loop listing [] 0 m0)
        as (n & [(e & t' & -> & _) | (due' & s' & -> & Hin & _)]) end;
      [discriminate|].
    cbn. intros [= <- <-]. cbn.
    split; [done|]. split; [by exists new|].
    intros t Ht. rewrite Hlook, decide_True; [done|].
    apply list_elem_of_fmap. exists t. split; [done | by apply Hin].
Qed.

Lemma run_check_phases m :
  run_check cfg E m =
  match list_due cfg E m with
  | (Ok due, m1) =>
      if is_nil due then (Ok tt, m1)
      else match check_each cfg E due empty_buckets 0 m1 with
           | (Ok (b, _), m2) => act_and_persist cfg E b m2
           | (Raise e, m2) => (Raise e, m2)
           end
  | (Raise e, m1) => (Raise e, m1)
  end.
Proof.
  unfold run_check, list_due, bind, now.
  destruct (get_torrents E (add_tick m)) as [[listing|e] m0]; [|done].
  destruct (is_nil listing); [done|].
  destruct (sm_cleanup_removed_torrents _ m0) as [[r|e] m1]; [|done].
  destruct (for_each listing _ _ m1) as [[[due skipped]|e] m2]; [|done].
  cbn. destruct (is_nil due); [done|].
  by destruct (check_each _ _ _ _ _ _) as [[[b n]|e] m3].
Qed.

End ActLemmas.

(** ** The checking loop and the store *)

Section LoopLemmas.
Variable cfg : config.
Variable E : env.

Lemma record_all_other counted : ∀ tick st h,
  h ∉ counted_hashes counted →
  torrents (record_all cfg E tick counted st) !! h = torrents st !! h.
Proof.
  induction counted as [|[t c] counted IH]; intros tick st h Hh; cbn; [done|].
  cbn in Hh. apply not_elem_of_cons in Hh as [Hne Hh].
  rewrite IH by done. cbn. by rewrite lookup_insert_ne.
Qed.

Lemma record_all_at counted : ∀ tick st i t c,
  NoDup (counted_hashes counted) →
  counted !! i = Some (t, c) →
  torrents (record_all cfg E tick counted st) !! t_hash t =
    Some {| name := t_name t;
            last_checked := Some (clock E (tick + i));
            last_seeder_count := c;
            last_classification := Some (classify_torrent cfg c) |}.
Proof.
  induction counted as [|[t0 c0] counted IH]; intros tick st i t c Hnd Hi; [done|].
  cbn in Hnd. apply NoDup_cons in Hnd as [Hnin Hnd].
  destruct i as [|i]; cbn in Hi |- *.
  - injection Hi as -> ->.
    rewrite record_all_other by done. cbn.
    by rewrite lookup_insert_eq, Nat.add_0_r.
  - rewrite (IH (S tick) _ i t c Hnd Hi).
    by replace (tick + S i) with (S tick + i) by lia.
Qed.

Lemma counted_hashes_zip (l : list torrent) (counts : list Z) :
  length counts = length l →
  counted_hashes (zip l counts) = map t_hash l.
Proof.
  intros Hlen. unfold counted_hashes.
  rewrite <- (fst_zip l counts) at 2 by lia.
  by rewrite <- list_fmap_compose.
Qed.

Lemma check_each_session todo : ∀ b n m,
  authenticated m = true →
  ∃ b' n' m' new,
    check_each cfg E todo b n m = (Ok (b', n'), m') ∧
    authenticated m' = true ∧
    exchanges m' = exchanges m ++ new ∧
    Forall (λ x, is_priority_request x.1 = false) new.
Proof.
  induction todo as [|t rest IH]; intros b n m Hm.
  - exists b, n, m, []. rewrite app_nil_r. by repeat split.
  - destruct (shutdown_requested E n) eqn:Hs.
    + exists b, n, m, []. rewrite app_nil_r, check_each_stop by done. by repeat split.
    + destruct (check_each_turn cfg E t rest b n m Hm Hs)
        as (c & m1 & new1 & -> & Ha & _ & _ & Hx & Hn & _).
      destruct (IH (add_to_bucket (classify_torrent cfg c) (make_torrent_info t c) b)
                  (S n) m1 Ha) as (b' & n' & m' & new & -> & Ha' & Hx' & Hn').
      exists b', n', m', (new1 ++ new).
      split; [done|]. split; [done|].
      split; [by rewrite Hx', Hx, app_assoc | by apply Forall_app].
Qed.

End LoopLemmas.

(** ** Priority calls of a cycle *)

Lemma filter_priority_none xs :
  Forall (λ x : exchange, is_priority_request x.1 = false) xs →
  filter (λ r, is_priority_request r = true) (requests xs) = [].
Proof.
  induction 1 as [|x xs Hx _ IH]; [done|].
  change (requests (x :: xs)) with (x.1 :: requests xs).
  rewrite filter_cons_False; [done|]. by rewrite Hx.
Qed.

Lemma filter_priority_all rs :
  Forall (λ r, is_priority_request r = true) rs →
  filter (λ r, is_priority_request r = true) rs = rs.
Proof.
  induction 1 as [|r rs Hr _ IH]; [done|].
  by rewrite filter_cons_True, IH.
Qed.

Lemma priority_requests_all b :
  Forall (λ r, is_priority_request r = true) (priority_requests b).
Proof.
  unfold priority_requests. rewrite !Forall_app. repeat split.
  - induction (low_torrents b); cbn; by repeat constructor.
  - induction (rare_torrents b); cbn; by repeat constructor.
  - induction (critical_torrents b); cbn; by repeat constructor.
Qed.

Lemma resume_requests_none l :
  filter (λ r, is_priority_request r = true) (resume_requests l) = [].
Proof.
  induction l as [|t l IH]; [done|].
  change (resume_requests (t :: l))
    with ((if is_paused t then [Resume (ti_hash t)] else []) ++ resume_requests l).
  rewrite filter_app, IH, app_nil_r. by destruct (is_paused t).
Qed.

(** C3, for a client that accepts the calls: when priorities are applied
    and every priority call is answered with status 200, the priority calls
    of a cycle are exactly, for each LOW torrent, top then two decreases,
    then for each RARE torrent top then one decrease, then for each
    CRITICAL torrent top alone, whatever the buckets hold. *)
Theorem priority_calls_in_tier_order (cfg : config) (E : env)
    (m m1 m2 : machine) (due : list torrent) (b : buckets) (n : nat) :
  SET_PRIORITIES cfg = true →
  accepts_priorities E →
  list_due cfg E m = (Ok due, m1) →
  is_nil due = false →
  check_each cfg E due empty_buckets 0 m1 = (Ok (b, n), m2) →
  ∃ m',
    run_check cfg E m = (Ok tt, m') ∧
    filter (λ r, is_priority_request r = true) (requests (exchanges m')) =
      filter (λ r, is_priority_request r = true) (requests (exchanges m)) ++
      priority_requests b.
Proof.
  intros Hset Hacc Hdue Hnil Hloop.
  destruct (list_due_spec cfg E m due m1 Hdue) as (Ha1 & (new1 & Hx1 & Hn1) & _).
  specialize (Ha1 Hnil).
  destruct (check_each_session cfg E due empty_buckets 0 m1 Ha1)
    as (b' & n' & m2' & new2 & Hloop' & Ha2 & Hx2 & Hn2).
  rewrite Hloop in Hloop'. injection Hloop' as <- <- <-.
  destruct (act_and_persist_session cfg E b m2 Ha2)
    as (a & new_p & new_r & m' & Hp & Hact & _ & Hx & Hr & _).
  destruct (apply_priorities_accepted cfg E b 0 m2 Hacc Hset Ha2)
    as (a' & new_p' & Hp' & Hreq).
  rewrite Hp in Hp'. injection Hp' as <- Hnew.
  assert (new_p' = new_p) as ->.
  { unfold extend in Hnew. by apply app_inv_head in Hnew. }
  exists m'. split.
  - by rewrite run_check_phases, Hdue, Hnil, Hloop.
  - rewrite Hx, Hx2, Hx1. rewrite !requests_app, !filter_app.
    rewrite (filter_priority_none new1), (filter_priority_none new2) by done.
    rewrite Hreq, Hr, filter_app, !app_nil_r.
    rewrite (filter_priority_all (priority_requests b)) by apply priority_requests_all.
    destruct (RESUME_RARE cfg), (RESUME_CRITICAL cfg);
      by rewrite ?resume_requests_none, ?app_nil_r.
Qed.

Lemma serving_accepts listing trackers : accepts_priorities (serving listing trackers).
Proof.
  intros history r Hr. destruct r; try discriminate; by eexists.
Qed.

Lemma priority_calls_in_tier_order_witness :
  ∃ m',
    run_check default_config (serving three_tiers []) (initial_machine empty_state)
      = (Ok tt, m') ∧
    filter (λ r, is_priority_request r = true) (requests (exchanges m')) =
      [TopPrio "L"; DecreasePrio "L"; DecreasePrio "L";
       TopPrio "R"; DecreasePrio "R"; TopPrio "C"].
Proof.
  pose (E := serving three_tiers []).
  pose (m := initial_machine empty_state).
  destruct (list_due default_config E m) as [[due|e] m1] eqn:Hdue;
    [|vm_compute in Hdue; discriminate].
  assert (Hd : due = three_tiers).
  { vm_compute in Hdue. by injection Hdue as <- _. }
  destruct (check_each default_config E due empty_buckets 0 m1) as [[[b n]|e] m2] eqn:Hloop;
    [|rewrite Hd in Hloop; vm_compute in Hdue; injection Hdue as _ <-;
      vm_compute in Hloop; discriminate].
  destruct (priority_calls_in_tier_order default_config E m m1 m2 due b n
              eq_refl (serving_accepts _ _) Hdue) as (m' & Hrun & Hcalls).
  { by rewrite Hd. }
  { exact Hloop. }
  exists m'. split; [exact Hrun|].
  rewrite Hcalls.
  rewrite Hd in Hloop. vm_compute in Hdue. injection Hdue as _ <-.
  vm_compute in Hloop. by injection Hloop as <- _ _.
Defined.

(** With a client that answers 500 to the priority calls the composite
    operations stop after their first call. *)
Lemma priority_calls_cut_short_when_refused :
  let '(_, m') := run_check default_config (refusing three_tiers)
                    (initial_machine empty_state) in
  filter (λ r, is_priority_request r = true) (requests (exchanges m')) =
    [TopPrio "L"; TopPrio "R"; TopPrio "C"] ∧
  filter (λ r, is_priority_request r = true) (requests (exchanges m')) ≠
    [TopPrio "L"; DecreasePrio "L"; DecreasePrio "L";
     TopPrio "R"; DecreasePrio "R"; TopPrio "C"].
Proof. vm_compute. split; [reflexivity | discriminate]. Qed.

(** ** A cycle interrupted by the shutdown flag *)

Section Interruption.
Variable cfg : config.
Variable E : env.

(** What holds of a cycle whose flag is raised after [k] due torrents. *)
Lemma interrupted_cycle m due m1 k :
  list_due cfg E m = (Ok due, m1) →
  (k < length due)%nat →
  (∀ i, (i < k)%nat → shutdown_requested E i = false) →
  shutdown_requested E k = true →
  ∃ counts m2 m' new_p new_r,
    length counts = k ∧
    authenticated m2 = true ∧
    check_each cfg E due empty_buckets 0 m1 =
      (Ok (bucket_all cfg (zip (take k due) counts) empty_buckets, k), m2) ∧
    state m2 = record_all cfg E (ticks m1) (zip (take k due) counts) (state m1) ∧
    run_check cfg E m = (Ok tt, m') ∧
    act_and_persist cfg E (bucket_all cfg (zip (take k due) counts) empty_buckets) m2
      = (Ok tt, m') ∧
    (∃ a, apply_priorities cfg E
            (bucket_all cfg (zip (take k due) counts) empty_buckets) 0 m2
          = (Ok a, extend true new_p m2)) ∧
    state m' = state m2 ∧
    exchanges m' = exchanges m2 ++ new_p ++ new_r ∧
    requests new_r =
      (if RESUME_RARE cfg
       then resume_requests
              (rare_torrents (bucket_all cfg (zip (take k due) counts) empty_buckets))
       else []) ++
      (if RESUME_CRITICAL cfg
       then resume_requests
              (critical_torrents (bucket_all cfg (zip (take k due) counts) empty_buckets))
       else []) ∧
    writes m' = writes m2 ++ [(state m2, disk_ok E (length (writes m2)))] ∧
    file m' = if disk_ok E (length (writes m2)) then Some (state m2)
              else if disk_emptied E (length (writes m2)) then None else file m2.
Proof.
  intros Hdue Hk Hgo Hstop.
  assert (Hnil : is_nil due = false) by (destruct due; [cbn in Hk; lia | done]).
  destruct (list_due_spec cfg E m due m1 Hdue) as (Ha1 & _ & _).
  specialize (Ha1 Hnil).
  destruct (check_each_spec cfg E due empty_buckets 0 m1 k Ha1)
    as (counts & m2 & new & Hlen & Hloop & Ha2 & Hst & _ & _ & _);
    [lia | done | done |].
  cbn [Nat.add] in Hloop.
  destruct (act_and_persist_session cfg E
              (bucket_all cfg (zip (take k due) counts) empty_buckets) m2 Ha2)
    as (a & new_p & new_r & m' & Hp & Hact & Hs & Hx & Hr & Hw & Hf).
  exists counts, m2, m', new_p, new_r.
  repeat (split; [done|]).
  split; [by rewrite run_check_phases, Hdue, Hnil, Hloop|].
  split; [done|]. split; [by exists a|]. by repeat split.
Qed.

End Interruption.

Lemma resume_requests_elem l t :
  t ∈ l → is_paused t = true → Resume (ti_hash t) ∈ resume_requests l.
Proof.
  intros Ht Hp. induction l as [|t0 l IH]; [by apply elem_of_nil in Ht|].
  change (resume_requests (t0 :: l))
    with ((if is_paused t0 then [Resume (ti_hash t0)] else []) ++ resume_requests l).
  apply elem_of_app. apply elem_of_cons in Ht as [<-|Ht].
  - left. rewrite Hp. by left.
  - right. by apply IH.
Qed.

(** C7, with persistence depending on the write: when the flag is raised
    after [k] of the due torrents, the cycle ends without an exception; the
    first [k] due torrents have an entry written in this cycle (their name,
    a clock reading of the loop, the seeder count and its class); the
    other due torrents keep the entry they had at the start of the cycle,
    or none; no other entry is touched by the loop; the last write
    attempted is the final store, and the file holds it when that write
    succeeds. *)
Theorem shutdown_keeps_checked_entries (cfg : config) (E : env)
    (m m1 : machine) (due : list torrent) (k : nat) :
  list_due cfg E m = (Ok due, m1) →
  NoDup (map t_hash due) →
  (k < length due)%nat →
  (∀ i, (i < k)%nat → shutdown_requested E i = false) →
  shutdown_requested E k = true →
  ∃ m' ok,
    run_check cfg E m = (Ok tt, m') ∧
    (∀ i t, (i < k)%nat → due !! i = Some t →
       ∃ c, torrents (state m') !! t_hash t =
              Some (checked_entry cfg t (clock E (ticks m1 + i)) c)) ∧
    (∀ i t, (k ≤ i)%nat → due !! i = Some t →
       torrents (state m') !! t_hash t = torrents (state m) !! t_hash t) ∧
    (∀ h, h ∉ map t_hash (take k due) →
       torrents (state m') !! h = torrents (state m1) !! h) ∧
    last (writes m') = Some (state m', ok) ∧
    (ok = true → file m' = Some (state m')).
Proof.
  intros Hdue Hnd Hk Hgo Hstop.
  destruct (interrupted_cycle cfg E m due m1 k Hdue Hk Hgo Hstop)
    as (counts & m2 & m' & new_p & new_r & Hlen & _ & _ & Hst & Hrun & _ & _
        & Hs & _ & _ & Hw & Hf).
  destruct (list_due_spec cfg E m due m1 Hdue) as (_ & _ & Hprior).
  assert (Hlen' : length counts = length (take k due)).
  { rewrite length_take_le; lia. }
  pose proof (counted_hashes_zip (take k due) counts Hlen') as Hhashes.
  assert (Hnd' : NoDup (map t_hash (take k due))).
  { change (map t_hash (take k due)) with (t_hash <$> take k due).
    rewrite fmap_take. eapply sublist_NoDup; [exact Hnd | apply sublist_take]. }
  exists m', (disk_ok E (length (writes m2))).
  split; [done|]. rewrite Hs, Hst.
  split; [|split; [|split; [|split]]].
  - intros i t Hi Ht.
    destruct (lookup_lt_is_Some_2 counts i) as [c Hc]; [lia|].
    exists c. apply record_all_at; [by rewrite Hhashes|].
    apply lookup_zip_Some. split; [|done]. by rewrite lookup_take_lt.
  - intros i t Hi Ht.
    rewrite record_all_other.
    + apply Hprior. by eapply list_elem_of_lookup_2.
    + rewrite Hhashes. intros Hin.
      apply list_elem_of_lookup in Hin as [j Hj].
      assert (Hjk : (j < k)%nat).
      { apply lookup_lt_Some in Hj. rewrite length_map, length_take_le in Hj; lia. }
      rewrite fmap_take, lookup_take_lt in Hj by done.
      assert (Hi' : map t_hash due !! i = Some (t_hash t)).
      { change (map t_hash due) with (t_hash <$> due).
        by rewrite list_lookup_fmap, Ht. }
      pose proof (NoDup_lookup _ _ _ _ Hnd Hj Hi'). lia.
  - intros h Hh. apply record_all_other. by rewrite Hhashes.
  - by rewrite Hw, last_snoc, Hst.
  - intros Hok. by rewrite Hf, Hok, Hst.
Qed.

(** C10: when the flag is raised after [k] due torrents, the loop returns
    the buckets of those [k] torrents, and the rest of the cycle is the
    action phase on these buckets: with priorities enabled a move to the top
    is sent for every bucketed torrent, with a resume toggle on a resume is
    sent for every paused torrent of that bucket, and the last write is a
    write of the final store. *)
Theorem shutdown_still_acts_and_saves (cfg : config) (E : env)
    (m m1 : machine) (due : list torrent) (k : nat) :
  list_due cfg E m = (Ok due, m1) →
  (k < length due)%nat →
  (∀ i, (i < k)%nat → shutdown_requested E i = false) →
  shutdown_requested E k = true →
  ∃ counts b m2 m' new,
    length counts = k ∧
    b = bucket_all cfg (zip (take k due) counts) empty_buckets ∧
    check_each cfg E due empty_buckets 0 m1 = (Ok (b, k), m2) ∧
    run_check cfg E m = (Ok tt, m') ∧
    act_and_persist cfg E b m2 = (Ok tt, m') ∧
    exchanges m' = exchanges m2 ++ new ∧
    (SET_PRIORITIES cfg = true →
     ∀ t, t ∈ low_torrents b ++ rare_torrents b ++ critical_torrents b →
          TopPrio (ti_hash t) ∈ requests new) ∧
    (RESUME_RARE cfg = true →
     ∀ t, t ∈ rare_torrents b → is_paused t = true →
          Resume (ti_hash t) ∈ requests new) ∧
    (RESUME_CRITICAL cfg = true →
     ∀ t, t ∈ critical_torrents b → is_paused t = true →
          Resume (ti_hash t) ∈ requests new) ∧
    writes m' = writes m2 ++ [(state m', disk_ok E (length (writes m2)))].
Proof.
  intros Hdue Hk Hgo Hstop.
  destruct (interrupted_cycle cfg E m due m1 k Hdue Hk Hgo Hstop)
    as (counts & m2 & m' & new_p & new_r & Hlen & Ha2 & Hloop & _ & Hrun & Hact
        & (a & Hp) & Hs & Hx & Hr & Hw & _).
  set (b := bucket_all cfg (zip (take k due) counts) empty_buckets) in *.
  destruct (apply_priorities_session cfg E b 0 m2 Ha2) as (a' & new_p' & Hp' & Htop).
  rewrite Hp in Hp'. injection Hp' as _ Hnew. apply app_inv_head in Hnew as <-.
  exists counts, b, m2, m', (new_p ++ new_r).
  repeat (split; [done|]).
  split; [|split; [|split]].
  - intros Hset t Ht. rewrite requests_app. apply elem_of_app. left. by apply Htop.
  - intros Hon t Ht Hpaused. rewrite requests_app, Hr, Hon.
    apply elem_of_app. right. apply elem_of_app. left.
    by apply resume_requests_elem.
  - intros Hon t Ht Hpaused. rewrite requests_app, Hr, Hon.
    apply elem_of_app. right. apply elem_of_app. right.
    by apply resume_requests_elem.
  - by rewrite Hw, Hs.
Qed.

Lemma five_torrents_due k disk :
  ∃ m1, list_due default_config (interrupted k disk five_torrents)
          (initial_machine empty_state) = (Ok five_torrents, m1).
Proof. eexists. vm_compute. reflexivity. Qed.

Lemma shutdown_keeps_checked_entries_witness :
  ∃ m' ok,
    run_check default_config (interrupted 2 true five_torrents)
      (initial_machine empty_state) = (Ok tt, m') ∧
    is_Some (torrents (state m') !! "t1") ∧
    is_Some (torrents (state m') !! "t2") ∧
    torrents (state m') !! "t3" = None ∧
    last (writes m') = Some (state m', ok) ∧
    (ok = true → file m' = Some (state m')).
Proof.
  destruct (five_torrents_due 2 true) as (m1 & Hdue).
  destruct (shutdown_keeps_checked_entries default_config
              (interrupted 2 true five_torrents) (initial_machine empty_state)
              m1 five_torrents 2 Hdue)
    as (m' & ok & Hrun & Hnew & Hold & _ & Hlast & Hfile).
  - apply (bool_decide_unpack _). by vm_compute.
  - cbn. lia.
  - intros i Hi. destruct i as [|[|i]]; [reflexivity | reflexivity | lia].
  - reflexivity.
  - exists m', ok. split; [exact Hrun|].
    destruct (Hnew 0 _ ltac:(lia) eq_refl) as (c1 & H1).
    destruct (Hnew 1 _ ltac:(lia) eq_refl) as (c2 & H2).
    pose proof (Hold 2 _ ltac:(lia) eq_refl) as H3.
    cbn in H1, H2, H3. rewrite H1, H2, H3.
    by repeat split.
Defined.

Lemma shutdown_still_acts_and_saves_witness :
  ∃ m' m2,
    run_check default_config (interrupted 2 true five_torrents)
      (initial_machine empty_state) = (Ok tt, m') ∧
    TopPrio "t1" ∈ requests (exchanges m') ∧
    Resume "t1" ∈ requests (exchanges m') ∧
    writes m' = writes m2 ++ [(state m', true)].
Proof.
  destruct (five_torrents_due 2 true) as (m1 & Hdue).
  destruct (shutdown_still_acts_and_saves default_config
              (interrupted 2 true five_torrents) (initial_machine empty_state)
              m1 five_torrents 2 Hdue)
    as (counts & b & m2 & m' & new & Hlen & Hb & Hloop & Hrun & _ & Hx
        & Htop & _ & Hres & Hw).
  - cbn. lia.
  - intros i Hi. destruct i as [|[|i]]; [reflexivity | reflexivity | lia].
  - reflexivity.
  - exists m', m2. split; [exact Hrun|].
    assert (Hb' : b = {| critical_torrents :=
                           [make_torrent_info (sample_torrent "t1" "pausedDL" 1 0) 1];
                         rare_torrents :=
                           [make_torrent_info (sample_torrent "t2" "downloading" 2 0) 2];
                         low_torrents := [] |}).
    { vm_compute in Hdue. injection Hdue as <-.
      vm_compute in Hloop. by injection Hloop as <- _. }
    rewrite Hx, requests_app.
    split; [|split; [|exact Hw]].
    + apply elem_of_app. right. apply (Htop eq_refl
               (make_torrent_info (sample_torrent "t1" "pausedDL" 1 0) 1)).
      rewrite Hb'. cbn. set_solver.
    + apply elem_of_app. right. apply (Hres eq_refl
               (make_torrent_info (sample_torrent "t1" "pausedDL" 1 0) 1)).
      * rewrite Hb'. cbn. set_solver.
      * reflexivity.
Defined.

(** When the write of the state file fails nothing is persisted, although
    the two entries are in the store. *)
Lemma shutdown_entries_lost_when_write_fails :
  let '(r, m') := run_check default_config (interrupted 2 false five_torrents)
                    (initial_machine empty_state) in
  r = Ok tt ∧ size (torrents (state m')) = 2 ∧ file m' = None.
Proof. vm_compute. by repeat split. Qed.

(** ** The end-to-end scenario *)

Lemma gmap_eq_by_list {A} (m1 m2 : gmap string A) :
  map_to_list m1 = map_to_list m2 → m1 = m2.
Proof. intros H. apply map_to_list_inj. by rewrite H. Qed.

Ltac evaluate := try apply gmap_eq_by_list; vm_compute; reflexivity.

(** C4, as the code classifies: in the scenario A is CRITICAL, B with 3
    seeders is LOW (not RARE) and C is HEALTHY; the store ends with these
    three entries and is written to the file; B gets the low priority
    sequence, then A is moved to the top, and A alone is resumed, when it
    is paused; nothing is sent for C; the statistics count one CRITICAL, no
    RARE, one LOW, one HEALTHY and no UNKNOWN. *)
Theorem end_to_end_scenario (pA pB pC : bool) :
  let m' := (scenario_run pA pB pC).2 in
  (scenario_run pA pB pC).1 = Ok tt ∧
  last_classification <$> torrents (state m') =
    {[ "A" := Some "CRITICAL"; "B" := Some "LOW"; "C" := Some "HEALTHY" ]} ∧
  last_seeder_count <$> torrents (state m') =
    {[ "A" := 1%Z; "B" := 3%Z; "C" := 10%Z ]} ∧
  requests (exchanges m') =
    [Login; TorrentsInfo;
     TopPrio "B"; DecreasePrio "B"; DecreasePrio "B"; TopPrio "A"] ++
    (if pA then [Resume "A"] else []) ∧
  get_stats (state m') =
    {[ "CRITICAL" := 1; "RARE" := 0; "LOW" := 1; "HEALTHY" := 1; "UNKNOWN" := 0 ]} ∧
  file m' = Some (state m').
Proof.
  destruct pA, pB, pC; cbv zeta;
    refine (conj _ (conj _ (conj _ (conj _ (conj _ _))))); evaluate.
Qed.

(** In the scenario B is not RARE and the statistics count no RARE
    torrent. *)
Lemma end_to_end_B_is_not_rare :
  let m' := (scenario_run false false false).2 in
  (torrents (state m') !! "B") ≫= last_classification ≠ Some "RARE" ∧
  get_stats (state m') !! "RARE" ≠ Some 1.
Proof.
  split; intros H; vm_compute in H; discriminate H.
Qed.

(** * Further properties *)

(** ** Further properties: classifier *)

(** X1: with thresholds in order (CRITICAL <= RARE <= LOW) the classifier is
    monotone: more seeders never give a more urgent tier. *)
Theorem classify_torrent_monotone (cfg : config) (c1 c2 : Z) :
  (CRITICAL_SEEDERS cfg ≤ RARE_SEEDERS cfg)%Z →
  (RARE_SEEDERS cfg ≤ LOW_SEEDERS cfg)%Z →
  (c1 ≤ c2)%Z →
  (tier_rank (classify_torrent cfg c1) ≤ tier_rank (classify_torrent cfg c2))%nat.
Proof.
  intros Hcr Hrl Hc. unfold classify_torrent.
  destruct (c1 <=? CRITICAL_SEEDERS cfg)%Z eqn:H1,
           (c2 <=? CRITICAL_SEEDERS cfg)%Z eqn:H2,
           (c1 <=? RARE_SEEDERS cfg)%Z eqn:H3,
           (c2 <=? RARE_SEEDERS cfg)%Z eqn:H4,
           (c1 <=? LOW_SEEDERS cfg)%Z eqn:H5,
           (c2 <=? LOW_SEEDERS cfg)%Z eqn:H6;
    cbn; try lia;
    rewrite ?Z.leb_le, ?Z.leb_gt in *; lia.
Qed.

Lemma classify_torrent_monotone_witness :
  (tier_rank (classify_torrent default_config 2) ≤
   tier_rank (classify_torrent default_config 7))%nat.
Proof.
  apply classify_torrent_monotone; cbn; lia.
Defined.

(** X2: a threshold out of order empties its tier: when RARE_SEEDERS is not
    above CRITICAL_SEEDERS no count is RARE, and when LOW_SEEDERS is not
    above both others no count is LOW. *)
Theorem classify_torrent_empty_tiers (cfg : config) (c : Z) :
  ((RARE_SEEDERS cfg ≤ CRITICAL_SEEDERS cfg)%Z → classify_torrent cfg c ≠ "RARE") ∧
  ((LOW_SEEDERS cfg ≤ CRITICAL_SEEDERS cfg)%Z ∨ (LOW_SEEDERS cfg ≤ RARE_SEEDERS cfg)%Z →
   classify_torrent cfg c ≠ "LOW").
Proof.
  unfold classify_torrent.
  destruct (c <=? CRITICAL_SEEDERS cfg)%Z eqn:H1,
           (c <=? RARE_SEEDERS cfg)%Z eqn:H2,
           (c <=? LOW_SEEDERS cfg)%Z eqn:H3;
    rewrite ?Z.leb_le, ?Z.leb_gt in *;
    (split; [intros H | intros [H|H]]); first [discriminate | lia].
Qed.

Lemma classify_torrent_empty_tiers_witness :
  let cfg := {| CHECK_INTERVAL_DAYS := float_of_int 30;
                CRITICAL_SEEDERS := 3; RARE_SEEDERS := 2;
                LOW_SEEDERS := 1; RESUME_CRITICAL := true; RESUME_RARE := false;
                SET_PRIORITIES := true |} in
  classify_torrent cfg 3 ≠ "RARE" ∧ classify_torrent cfg 3 ≠ "LOW".
Proof.
  intros cfg. destruct (classify_torrent_empty_tiers cfg 3) as [Hr Hl].
  split; [apply Hr; cbn; lia | apply Hl; left; cbn; lia].
Defined.

(** ** Further properties: configuration *)

Lemma get_env_bool_insert environ key val d :
  get_env_bool (<[key := val]> environ) key d =
    existsb (String.eqb (lower val)) ["true"; "1"; "yes"].
Proof. unfold get_env_bool. by rewrite lookup_insert_eq. Qed.

(** X3: an unset variable gives the default.  A set variable gives [True]
    exactly when its value, in lower case, is [true], [1] or [yes], whatever
    the default: so [TRUE], [True], [tRuE], [Yes], [YES] and [1] give
    [True] with the default [False], and the empty text, [0], [false],
    [no], [on], [y], [2] and a value with a space around it give [False]
    with the default [True]. *)
Theorem get_env_bool_set_overrides (environ : gmap string string)
    (key val : string) (d : bool) :
  get_env_bool (delete key environ) key d = d ∧
  (get_env_bool (<[key := val]> environ) key d = true ↔
     lower val = "true" ∨ lower val = "1" ∨ lower val = "yes") ∧
  get_env_bool (<[key := "true"]> environ) key false = true ∧
  get_env_bool (<[key := "TRUE"]> environ) key false = true ∧
  get_env_bool (<[key := "True"]> environ) key false = true ∧
  get_env_bool (<[key := "tRuE"]> environ) key false = true ∧
  get_env_bool (<[key := "1"]> environ) key false = true ∧
  get_env_bool (<[key := "yes"]> environ) key false = true ∧
  get_env_bool (<[key := "Yes"]> environ) key false = true ∧
  get_env_bool (<[key := "YES"]> environ) key false = true ∧
  get_env_bool (<[key := ""]> environ) key true = false ∧
  get_env_bool (<[key := "0"]> environ) key true = false ∧
  get_env_bool (<[key := "2"]> environ) key true = false ∧
  get_env_bool (<[key := "false"]> environ) key true = false ∧
  get_env_bool (<[key := "no"]> environ) key true = false ∧
  get_env_bool (<[key := "on"]> environ) key true = false ∧
  get_env_bool (<[key := "y"]> environ) key true = false ∧
  get_env_bool (<[key := " true"]> environ) key true = false ∧
  get_env_bool (<[key := "yes "]> environ) key true = false.
Proof.
  split; [unfold get_env_bool; by rewrite lookup_delete_eq|].
  rewrite !get_env_bool_insert. split; [|by repeat split].
  cbn [existsb]. rewrite !orb_true_iff, !String.eqb_eq. intuition congruence.
Qed.

(** ** Further properties: schedule store *)

(** X4: [update_torrent] writes the entry of its torrent and no other: the
    entry read back has the given time, count and class, every other hash
    keeps what it had, and a later update of the same hash replaces the
    earlier one. *)
Theorem update_torrent_lookup (st : state_doc) (now : Z) (h n : string)
    (c : Z) (cl : string) :
  (∀ h', torrents (update_torrent st now h n c cl) !! h' =
         if decide (h' = h)
         then Some {| name := n; last_checked := Some now;
                      last_seeder_count := c; last_classification := Some cl |}
         else torrents st !! h') ∧
  get_last_checked (update_torrent st now h n c cl) h = Some now ∧
  last_full_run (update_torrent st now h n c cl) = last_full_run st ∧
  (∀ now0 n0 c0 cl0,
     update_torrent (update_torrent st now0 h n0 c0 cl0) now h n c cl =
     update_torrent st now h n c cl).
Proof.
  split; [|split; [|split]].
  - intros h'. cbn. rewrite lookup_insert. by destruct (decide (h = h')), (decide (h' = h)).
  - unfold get_last_checked. cbn. by rewrite lookup_insert_eq.
  - done.
  - intros. unfold update_torrent, set_torrents. cbn. by rewrite insert_insert_eq.
Qed.

(** X5: what [update_torrent] writes, [needs_check] reads.  For a torrent
    just recorded at [T] and an interval of [d] whole days, with
    [T + d days] a moment of [datetime]: the torrent is due exactly from
    [T + d days] on; so with a zero or negative interval it is due at once
    and stays so, and with a positive interval it is not due as long as the
    clock still shows [T] or less.  When [T + d days] is after the year
    9999, [needs_check] raises [OverflowError] at every time: the torrent
    can not be examined again. *)
Theorem needs_check_after_update (st : state_doc) (T : Z) (h n : string)
    (c : Z) (cl : string) (d now : Z) :
  (0 ≤ T ≤ datetime_max)%Z →
  (-999999999 ≤ d ≤ 999999999)%Z →
  let st' := update_torrent st T h n c cl in
  let due := (T + d * 86400000000)%Z in
  ((0 ≤ due ≤ datetime_max)%Z →
     needs_check st' now h (float_of_int d) = Ok (bool_decide (due ≤ now)%Z)) ∧
  ((0 ≤ due)%Z → (d ≤ 0)%Z → (T ≤ now)%Z →
     needs_check st' now h (float_of_int d) = Ok true) ∧
  ((0 < d)%Z → (due ≤ datetime_max)%Z → (now ≤ T)%Z →
     needs_check st' now h (float_of_int d) = Ok false) ∧
  ((datetime_max < due)%Z →
     needs_check st' now h (float_of_int d) = Raise OverflowError).
Proof.
  intros HT Hd st' due.
  assert (Heq : needs_check st' now h (float_of_int d) =
                if decide (0 ≤ due ≤ datetime_max)%Z then Ok (due <=? now)%Z
                else Raise OverflowError).
  { erewrite needs_check_entry; [|unfold st'; cbn; by rewrite lookup_insert_eq|done|done].
    rewrite timedelta_whole_days by lia. by rewrite decide_True by done. }
  rewrite Heq. split; [|split; [|split]].
  - intros Hr. rewrite decide_True by done. f_equal.
    case_bool_decide; [by apply Z.leb_le | by apply Z.leb_gt; lia].
  - intros H0 Hneg Hnow. rewrite decide_True by (unfold due in *; lia).
    f_equal. apply Z.leb_le. unfold due. lia.
  - intros Hpos Hmax Hnow. rewrite decide_True by (unfold due in *; lia).
    f_equal. apply Z.leb_gt. unfold due. lia.
  - intros Hover. rewrite decide_False; [done | lia].
Qed.

Lemma needs_check_after_update_witness :
  let st := update_torrent empty_state new_year_2024 "a" "A" 3 "LOW" in
  needs_check st new_year_2024 "a" (float_of_int 30) = Ok false ∧
  needs_check st new_year_2024 "a" (float_of_int 0) = Ok true ∧
  needs_check st new_year_2024 "a" (float_of_int 4000000) = Raise OverflowError.
Proof.
  intros st.
  assert (Hr : (0 ≤ new_year_2024 ≤ datetime_max)%Z) by (vm_compute; split; discriminate).
  split; [|split].
  - apply (needs_check_after_update empty_state new_year_2024 "a" "A" 3 "LOW" 30
             new_year_2024 Hr); [lia | lia | vm_compute; discriminate | lia].
  - apply (needs_check_after_update empty_state new_year_2024 "a" "A" 3 "LOW" 0
             new_year_2024 Hr); [lia | vm_compute; discriminate | lia | lia].
  - apply (needs_check_after_update empty_state new_year_2024 "a" "A" 3 "LOW" 4000000
             new_year_2024 Hr); [lia | vm_compute; reflexivity].
Defined.

Lemma initial_stats_lookup tier :
  initial_stats !! tier = if decide (tier ∈ stats_keys) then Some 0 else None.
Proof.
  unfold initial_stats, stats_keys.
  rewrite !lookup_insert, lookup_empty.
  destruct (decide (tier ∈ _)) as [Hin|Hnin].
  - repeat (apply elem_of_cons in Hin as [->|Hin];
              [repeat case_decide; congruence|]).
    by apply elem_of_nil in Hin.
  - repeat case_decide; try done; exfalso; apply Hnin; subst tier;
      repeat first [apply list_elem_of_here | apply list_elem_of_further].
Qed.

Lemma entries_of_tier_empty tier : entries_of_tier tier ∅ = 0.
Proof. unfold entries_of_tier. by rewrite map_filter_empty, map_size_empty. Qed.

Lemma entries_of_tier_insert tier (ts : gmap string entry) i x :
  ts !! i = None →
  entries_of_tier tier (<[i:=x]> ts) =
    if decide (counted_as x = tier) then S (entries_of_tier tier ts)
    else entries_of_tier tier ts.
Proof.
  intros Hi. unfold entries_of_tier. case_decide as Hc.
  - rewrite map_filter_insert_True by done.
    apply map_size_insert_None, map_lookup_filter_None. by left.
  - rewrite map_filter_insert_not'; [done | done |]. intros y Hy. congruence.
Qed.

Lemma default_stat_of tier n : default 0 (stat_of tier n) = n.
Proof. unfold stat_of. case_decide; [done|]. by destruct n. Qed.

(** X6: [get_stats] counts the entries by their last classification: the
    five tier names are always present, an entry without classification is
    counted as UNKNOWN, and any other classification found in the store
    gets a key of its own. *)
Theorem get_stats_counts (st : state_doc) (tier : string) :
  get_stats st !! tier = stat_of tier (entries_of_tier tier (torrents st)).
Proof.
  unfold get_stats. revert tier.
  apply (map_fold_weak_ind
           (λ stats ts, ∀ tier, stats !! tier = stat_of tier (entries_of_tier tier ts))).
  - intros tier. rewrite initial_stats_lookup, entries_of_tier_empty.
    unfold stat_of. by case_decide.
  - intros i x ts r Hi IH tier. unfold count_entry. fold (counted_as x).
    rewrite entries_of_tier_insert by done.
    rewrite lookup_insert. case_decide as Hc.
    + subst tier. rewrite IH, default_stat_of, Nat.add_1_r.
      unfold stat_of. by case_decide.
    + apply IH.
Qed.

Lemma removed_hashes_nil st current :
  (∀ h, is_Some (torrents st !! h) → h ∈ current) →
  removed_hashes st current = [].
Proof.
  intros Hall. destruct (removed_hashes st current) as [|h l] eqn:Hr; [done|].
  assert (Hh : h ∈ removed_hashes st current) by (rewrite Hr; by left).
  apply elem_of_removed_hashes in Hh as [Hs Hn]. destruct Hn. by apply Hall.
Qed.

Lemma cleanup_noop st current :
  (∀ h, is_Some (torrents st !! h) → h ∈ current) →
  cleanup_removed_torrents st current = (None, st, []).
Proof.
  intros Hall. unfold cleanup_removed_torrents.
  rewrite removed_hashes_nil by done. by destruct st.
Qed.

(** X7: cleaning up twice is cleaning up once: after
    [cleanup_removed_torrents] a second call with the same list removes
    nothing and logs nothing; and a call whose list holds every stored hash
    leaves the store as it is. *)
Theorem cleanup_removed_torrents_idempotent (st : state_doc) (current : list string) :
  cleanup_removed_torrents (cleanup_removed_torrents st current).1.2 current =
    (None, (cleanup_removed_torrents st current).1.2, []) ∧
  ((∀ h, is_Some (torrents st !! h) → h ∈ current) →
   cleanup_removed_torrents st current = (None, st, [])).
Proof.
  split; [|apply cleanup_noop].
  apply cleanup_noop. intros h. rewrite cleanup_lookup.
  case_decide; [done|]. by intros [? ?].
Qed.

Lemma cleanup_removed_torrents_idempotent_witness :
  let st := update_torrent empty_state 5 "a" "A" 1 "CRITICAL" in
  cleanup_removed_torrents st ["a"; "b"] = (None, st, []).
Proof.
  intros st. apply cleanup_removed_torrents_idempotent.
  intros h [e He]. unfold st in He. cbn in He.
  apply lookup_insert_Some in He as [[<- _]|[_ He]]; [by left|].
  by rewrite lookup_empty in He.
Defined.

(** X8: the purge does not change which listed torrents are due, and a
    torrent that left the listing is due again should it come back. *)
Theorem needs_check_after_cleanup (st : state_doc) (current : list string)
    (now : Z) (h : string) (D : float) :
  needs_check (cleanup_removed_torrents st current).1.2 now h D =
    if decide (h ∈ current) then needs_check st now h D else Ok true.
Proof.
  unfold needs_check, get_last_checked. rewrite cleanup_lookup.
  by case_decide.
Qed.

(** ** Further properties: display name *)

Arguments continues : simpl never.

Lemma str_len_append (s1 s2 : string) :
  str_len (s1 ++ s2)%string = str_len s1 + str_len s2.
Proof.
  induction s1 as [|c s1 IH]; simpl; [done|].
  rewrite IH. by destruct (continues c).
Qed.

Lemma str_len_take k (s : string) : str_len (str_take k s) = min k (str_len s).
Proof.
  revert k. induction s as [|c s IH]; intros k; simpl.
  - by rewrite Nat.min_0_r.
  - destruct (continues c) eqn:Hc; simpl; rewrite ?Hc; [apply IH|].
    destruct k as [|k]; simpl; rewrite ?Hc; [done|]. by rewrite IH.
Qed.

(** A slice ends where a character ends. *)
Lemma str_take_prefix k (s : string) :
  ∃ rest, s = (str_take k s ++ rest)%string ∧
          match rest with
          | EmptyString => True
          | String c _ => continues c = false
          end.
Proof.
  revert k. induction s as [|c s IH]; intros k; simpl.
  - by exists "".
  - destruct (continues c) eqn:Hc.
    + destruct (IH k) as (rest & Hr & Hb). exists rest. split; [|done].
      change (String c s = String c (str_take k s ++ rest)%string). by f_equal.
    + destruct k as [|k].
      * exists (String c s). by split.
      * destruct (IH k) as (rest & Hr & Hb). exists rest. split; [|done].
        change (String c s = String c (str_take k s ++ rest)%string). by f_equal.
Qed.

(** X9: the name kept for the report is the name itself when it has at most
    60 characters; a longer name is cut after its 60th character, where
    that character ends, and followed by three dots, 63 characters in all.
    Characters are counted, not bytes: a name of 40 letters of two bytes
    each is kept whole, and one of 61 such letters keeps 60 of them. *)
Theorem display_name_bounded (n : string) :
  (str_len (display_name n) ≤ 63)%nat ∧
  ((str_len n ≤ 60)%nat → display_name n = n) ∧
  ((60 < str_len n)%nat →
     str_len (display_name n) = 63 ∧
     ∃ kept c rest, str_len kept = 60 ∧ continues c = false ∧
                    n = (kept ++ String c rest)%string ∧
                    display_name n = (kept ++ "...")%string) ∧
  display_name (str_repeat "é" 40) = str_repeat "é" 40 ∧
  display_name (str_repeat "é" 61) = (str_repeat "é" 60 ++ "...")%string ∧
  display_name (str_repeat "ab" 31) = (str_repeat "ab" 30 ++ "...")%string.
Proof.
  split; [|split; [|split; [|by repeat split]]]; unfold display_name.
  - destruct (60 <? str_len n)%nat eqn:Hlen.
    + apply Nat.ltb_lt in Hlen. rewrite str_len_append, str_len_take.
      change (str_len "...") with 3. lia.
    + apply Nat.ltb_ge in Hlen. lia.
  - intros Hlen. apply Nat.ltb_ge in Hlen. by rewrite Hlen.
  - intros Hlen.
    assert (Hk : str_len (str_take 60 n) = 60) by (rewrite str_len_take; lia).
    apply Nat.ltb_lt in Hlen as Hb. rewrite Hb.
    split; [by rewrite str_len_append, Hk|].
    destruct (str_take_prefix 60 n) as (rest & Hr & Hbound).
    destruct rest as [|c rest].
    + exfalso. rewrite Hr, str_len_append, Hk in Hlen.
      change (str_len "") with 0 in Hlen. lia.
    + by exists (str_take 60 n), c, rest.
Qed.

Lemma display_name_bounded_witness :
  display_name "ubuntu-24.04.iso" = "ubuntu-24.04.iso".
Proof. apply display_name_bounded. vm_compute. lia. Defined.

(** ** Further properties: loading the state file *)

(** X10: when [_load_state] returns for a file that holds JSON, it returns
    the document of the file as it is, unknown fields included, with one
    log line giving the number of torrents; an object without a [torrents]
    key is returned like that too (zero torrents), not replaced by the
    empty document. *)
Theorem load_state_returns_document (data d : json_value) (lines : list log_record) :
  (_load_state (Contents (Some data)) = (Ok d, lines) →
     d = data ∧ ∃ n, lines = [(INFO, Loaded_state n)]) ∧
  (∀ fields, assoc "torrents" fields = None →
     _load_state (Contents (Some (JObject fields))) =
       (Ok (JObject fields), [(INFO, Loaded_state 0)])).
Proof.
  split.
  - unfold _load_state.
    destruct (py_get data "torrents" (JObject [])) as [ts|e]; [|discriminate].
    destruct (py_len ts) as [n|e]; [|discriminate].
    intros [= <- <-]. split; [done | by exists n].
  - intros fields Hf. unfold _load_state, py_get. by rewrite Hf.
Qed.

Lemma load_state_returns_document_witness :
  let data := JObject [("torrents", JObject []); ("version", JNumber 2)] in
  _load_state (Contents (Some data)) = (Ok data, [(INFO, Loaded_state 0)]).
Proof.
  intros data.
  destruct (_load_state (Contents (Some data))) as [[d|e] lines] eqn:Hl;
    [|vm_compute in Hl; discriminate].
  destruct (load_state_returns_document data d lines) as [H _].
  destruct (H Hl) as [-> [n ->]].
  vm_compute in Hl. by injection Hl as <-.
Defined.

(** ** Further properties: gateway *)

(** X11: [login] makes exactly one call; it returns [true] and establishes
    the session exactly when the answer is the text [Ok.] (the status code
    is not looked at); otherwise it returns [false] and leaves the session
    flag as it was. *)
Theorem login_acknowledged (E : env) (m : machine) :
  let o := http E (exchanges m) Login in
  login E m =
    (Ok (acknowledged o),
     extend (if acknowledged o then true else authenticated m) [(Login, o)] m).
Proof.
  cbv zeta. exec_gateway; unfold acknowledged;
    rewrite ?Ho; cbn; rewrite ?Heqb; reflexivity.
Qed.

Ltac relogin :=
  let m := fresh "m" in
  let Hm := fresh "Hm" in
  intros m Hm; unfold_gateway; cbn -[extend]; rewrite Hm;
  repeat (exec_step; cbn -[extend]; rewrite ?Hm);
  rewrite ?set_authenticated_extend, ?extend_extend;
  eexists _, _, _; (split; [reflexivity|]);
  unfold acknowledged;
  let H := fresh "H" in
  intros H; first [discriminate H | congruence | by repeat split].

Lemma get_torrents_logs_in_first E : logs_in_first E (get_torrents E) [].
Proof. relogin. Qed.

Lemma get_torrent_trackers_logs_in_first E h :
  logs_in_first E (get_torrent_trackers E h) [].
Proof. relogin. Qed.

Lemma resume_torrent_logs_in_first E h : logs_in_first E (resume_torrent E h) false.
Proof. relogin. Qed.

Lemma set_top_priority_logs_in_first E h :
  logs_in_first E (set_top_priority E h) false.
Proof. relogin. Qed.

Lemma set_rare_priority_logs_in_first E h :
  logs_in_first E (set_rare_priority E h) false.
Proof. relogin. Qed.

Lemma set_low_priority_logs_in_first E h :
  logs_in_first E (set_low_priority E h) false.
Proof. relogin. Qed.

(** X12: without a session every operation logs in first, and when the
    login is not acknowledged it sends nothing else and returns its safe
    default; no command reaches the client over a session that was not
    established. *)
Theorem operations_log_in_first (E : env) :
  logs_in_first E (get_torrents E) [] ∧
  (∀ h, logs_in_first E (get_torrent_trackers E h) []) ∧
  (∀ h, logs_in_first E (resume_torrent E h) false) ∧
  (∀ h, logs_in_first E (set_top_priority E h) false) ∧
  (∀ h, logs_in_first E (set_rare_priority E h) false) ∧
  (∀ h, logs_in_first E (set_low_priority E h) false).
Proof.
  split; [apply get_torrents_logs_in_first|].
  split; [apply get_torrent_trackers_logs_in_first|].
  split; [apply resume_torrent_logs_in_first|].
  split; [apply set_top_priority_logs_in_first|].
  split; [apply set_rare_priority_logs_in_first | apply set_low_priority_logs_in_first].
Qed.

Lemma operations_log_in_first_witness :
  set_low_priority unreachable "h" (initial_machine empty_state) =
    (Ok false, extend false [(Login, Failed)] (initial_machine empty_state)).
Proof.
  destruct (operations_log_in_first unreachable) as (_ & _ & _ & _ & _ & Hlow).
  destruct (Hlow "h" (initial_machine empty_state) eq_refl)
    as (v & a & new & Heq & Hno).
  destruct (Hno eq_refl) as (-> & -> & ->). exact Heq.
Defined.

Lemma exchanges_extend a new m : exchanges (extend a new m) = exchanges m ++ new.
Proof. reflexivity. Qed.

Ltac steps :=
  let m := fresh "m" in
  let Hm := fresh "Hm" in
  intros m Hm; unfold_gateway; cbn -[extend]; rewrite Hm;
  repeat (exec_step; cbn -[extend]; rewrite ?Hm, ?exchanges_extend);
  rewrite ?set_authenticated_extend, ?extend_extend; cbn -[extend];
  bool_facts; first [reflexivity | congruence | lia].

Lemma resume_torrent_steps E h : runs_steps E (resume_torrent E h) [Resume h].
Proof. steps. Qed.

Lemma set_top_priority_steps E h : runs_steps E (set_top_priority E h) [TopPrio h].
Proof. steps. Qed.

Lemma set_rare_priority_steps E h :
  runs_steps E (set_rare_priority E h) [TopPrio h; DecreasePrio h].
Proof. steps. Qed.

Lemma set_low_priority_steps E h :
  runs_steps E (set_low_priority E h) [TopPrio h; DecreasePrio h; DecreasePrio h].
Proof. steps. Qed.

Lemma sent_prefix E history full : requests (sent E history full) `prefix_of` full.
Proof.
  revert history. induction full as [|r full IH]; intros history; cbn; [done|].
  destruct (answered_200 _).
  - apply prefix_cons, IH.
  - apply prefix_cons, prefix_nil.
Qed.

(** X13: on an established session each command sends its steps in order,
    the next one only when the one before was answered with status 200, and
    nothing after a step that was not; it returns [true] exactly when every
    step was sent and answered with 200.  Steps already accepted are not
    taken back; no login is sent and the session stays established.  So a
    client that accepts the move to the top and refuses to lower the
    priority leaves a RARE or LOW torrent at the top, with the result
    [false]. *)
Theorem commands_run_steps (E : env) (h : string) :
  runs_steps E (resume_torrent E h) [Resume h] ∧
  runs_steps E (set_top_priority E h) [TopPrio h] ∧
  runs_steps E (set_rare_priority E h) [TopPrio h; DecreasePrio h] ∧
  runs_steps E (set_low_priority E h) [TopPrio h; DecreasePrio h; DecreasePrio h].
Proof.
  split; [apply resume_torrent_steps|].
  split; [apply set_top_priority_steps|].
  split; [apply set_rare_priority_steps | apply set_low_priority_steps].
Qed.

Lemma commands_run_steps_witness :
  let m := set_authenticated true (initial_machine empty_state) in
  set_rare_priority (serving [] []) "h" m =
    (Ok true,
     extend true [(TopPrio "h", Answer (plain_answer 200 ""));
                  (DecreasePrio "h", Answer (plain_answer 200 ""))] m) ∧
  set_rare_priority lowering_refused "h" m =
    (Ok false,
     extend true [(TopPrio "h", Answer (plain_answer 200 "Ok."));
                  (DecreasePrio "h", Answer (plain_answer 409 ""))] m) ∧
  set_low_priority (refusing []) "h" m =
    (Ok false, extend true [(TopPrio "h", Answer (plain_answer 500 ""))] m).
Proof.
  intros m. split; [|split].
  - destruct (commands_run_steps (serving [] []) "h") as (_ & _ & Hrare & _).
    exact (Hrare m eq_refl).
  - destruct (commands_run_steps lowering_refused "h") as (_ & _ & Hrare & _).
    exact (Hrare m eq_refl).
  - destruct (commands_run_steps (refusing []) "h") as (_ & _ & _ & Hlow).
    exact (Hlow m eq_refl).
Defined.

(** X14: on an established session [get_torrents] makes one call; the
    session stays established exactly when the answer has no error status
    and decodes, and then the decoded list is returned; in every other case
    the result is empty and the session is dropped.  The tracker query
    makes one call too and always keeps the session: when the call fails,
    is answered with an error status or with a body that does not decode,
    it returns the empty list, and otherwise the decoded list. *)
Theorem listing_failure_drops_session (E : env) (m : machine) :
  authenticated m = true →
  let o := http E (exchanges m) TorrentsInfo in
  (∃ listing a,
     get_torrents E m = (Ok listing, extend a [(TorrentsInfo, o)] m) ∧
     (a = false → listing = []) ∧
     (a = true ↔ ∃ resp, o = Answer resp ∧
                  ((400 <=? status_code resp) && (status_code resp <? 600))%Z = false ∧
                  json_torrents resp = Some listing)) ∧
  (∀ h, ∃ trackers,
     get_torrent_trackers E h m =
       (Ok trackers, extend true [(Trackers h, http E (exchanges m) (Trackers h))] m) ∧
     (failed (Trackers h, http E (exchanges m) (Trackers h)) → trackers = []) ∧
     (∀ resp, http E (exchanges m) (Trackers h) = Answer resp →
        ¬ (400 ≤ status_code resp < 600)%Z →
        json_trackers resp = None ∨ json_trackers resp = Some trackers)).
Proof.
  intros Hm o. subst o. split.
  - unfold_gateway; cbn -[extend]; rewrite Hm;
      repeat (exec_step; cbn -[extend]; rewrite ?Hm);
      rewrite ?set_authenticated_extend, ?extend_extend;
      eexists _, _; (split; [reflexivity|]);
      (split; [first [done | discriminate]|]);
      (split; [first [discriminate | intros _; eexists; repeat split; eauto]
              | first [done | intros (resp' & Hr & Hs & Hj); simplify_eq; congruence]]).
  - intros h. rewrite get_torrent_trackers_eq by done.
    eexists. split; [reflexivity|].
    destruct (http E (exchanges m) (Trackers h)) as [|resp]; cbn.
    + split; [done|]. by intros resp [=].
    + split.
      * intros [Herr|Hnone]; case_decide; try done. by rewrite Hnone.
      * intros resp' [= <-] Hok. rewrite decide_False by done.
        destruct (json_trackers resp); [by right | by left].
Qed.

Lemma listing_failure_drops_session_witness :
  let m := set_authenticated true (initial_machine empty_state) in
  get_torrents unreachable m = (Ok [], extend false [(TorrentsInfo, Failed)] m) ∧
  get_torrent_trackers unreachable "h" m =
    (Ok [], extend true [(Trackers "h", Failed)] m) ∧
  get_torrent_trackers (refusing []) "h" m =
    (Ok [], extend true [(Trackers "h", Answer (plain_answer 500 ""))] m).
Proof.
  intros m.
  destruct (listing_failure_drops_session unreachable m eq_refl)
    as ((listing & a & Heq & Hdrop & Hkeep) & Htr).
  split; [|split].
  - destruct a.
    + destruct Hkeep as [Hkeep _].
      destruct (Hkeep eq_refl) as (resp & Hr & _). discriminate Hr.
    + by rewrite Heq, (Hdrop eq_refl).
  - destruct (Htr "h") as (trackers & Ht & Hfail & _).
    by rewrite Ht, (Hfail I).
  - destruct (listing_failure_drops_session (refusing []) m eq_refl) as (_ & Htr').
    destruct (Htr' "h") as (trackers & Ht & Hfail & _).
    rewrite Ht, Hfail; [done|]. left. cbn. lia.
Defined.

(** X15: after a listing that failed on an established session, the next
    listing starts with a new login. *)
Theorem failed_listing_then_login (E : env) (m : machine) :
  authenticated m = true →
  http E (exchanges m) TorrentsInfo = Failed →
  ∃ m1,
    get_torrents E m = (Ok [], m1) ∧
    exchanges m1 = exchanges m ++ [(TorrentsInfo, Failed)] ∧
    ∃ v a new,
      get_torrents E m1 =
        (Ok v, extend a ((Login, http E (exchanges m1) Login) :: new) m1).
Proof.
  intros Hm Hfail.
  assert (Hget : get_torrents E m = (Ok [], extend false [(TorrentsInfo, Failed)] m)).
  { unfold_gateway; cbn -[extend]; rewrite Hm.
    rewrite (send_spec E TorrentsInfo m), Hfail. reflexivity. }
  eexists. split; [exact Hget|]. split; [reflexivity|].
  destruct (get_torrents_logs_in_first E (extend false [(TorrentsInfo, Failed)] m) eq_refl)
    as (v & a & new & Heq & _).
  by exists v, a, new.
Qed.

Lemma failed_listing_then_login_witness :
  let m := set_authenticated true (initial_machine empty_state) in
  ∃ m1 v a new,
    get_torrents unreachable m = (Ok [], m1) ∧
    get_torrents unreachable m1 = (Ok v, extend a ((Login, Failed) :: new) m1).
Proof.
  intros m.
  destruct (failed_listing_then_login unreachable m eq_refl eq_refl)
    as (m1 & Hget & _ & v & a & new & Hnext).
  by exists m1, v, a, new.
Defined.

(** ** Further properties: seeder estimator *)

Lemma extend_inj a new a' new' m :
  extend a new m = extend a' new' m → a = a' ∧ new = new'.
Proof.
  unfold extend. intros H. split; [congruence|].
  assert (Hx : exchanges m ++ new = exchanges m ++ new') by congruence.
  by apply app_inv_head in Hx.
Qed.

(** X16: the estimate is never below the client's own contribution, so a
    torrent this client seeds is never estimated at zero seeders; on an
    established session the estimator makes at most one call, a tracker
    query for this torrent; and when that query fails the estimate is the
    own contribution. *)
Theorem get_seeder_count_own_contribution (E : env) (t : torrent) (m : machine) :
  authenticated m = true →
  ∃ c trail,
    get_seeder_count E t m = (Ok c, extend true trail m) ∧
    (our_contribution t ≤ c)%Z ∧
    (get_state_in (t_state t) seeding_states = true → (1 ≤ c)%Z) ∧
    (length trail ≤ 1)%nat ∧
    Forall (λ x, x.1 = Trackers (t_hash t)) trail ∧
    (Exists failed trail → c = our_contribution t).
Proof.
  intros Hm. rewrite get_seeder_count_eq.
  pose proof (our_contribution_bounds t) as Hown.
  assert (Hseed : get_state_in (t_state t) seeding_states = true →
                  our_contribution t = 1%Z).
  { intros H. unfold our_contribution. by rewrite H. }
  destruct (0 <? default 0 (t_num_complete t))%Z eqn:H1.
  { apply Z.ltb_lt in H1. exists (default 0%Z (t_num_complete t)), [].
    rewrite <- Hm, extend_nil.
    repeat split; [lia | intros H; lia | cbn; lia | constructor |].
    intros H. by apply Exists_nil in H. }
  destruct (0 <? default 0 (t_num_seeds t))%Z eqn:H2.
  { apply Z.ltb_lt in H2. eexists _, [].
    rewrite <- Hm, extend_nil.
    repeat split; [lia | intros H; lia | cbn; lia | constructor |].
    intros H. by apply Exists_nil in H. }
  destruct (get_torrent_trackers_absorbs E (t_hash t) m)
    as (trackers & a & new & Heq & Hfail).
  destruct (get_torrent_trackers_session E (t_hash t) m Hm) as (v & o & Heq').
  rewrite Heq' in Heq.
  assert (Hv : v = trackers) by congruence. subst v.
  assert (Hext : extend true [(Trackers (t_hash t), o)] m = extend a new m) by congruence.
  apply extend_inj in Hext as [<- <-].
  rewrite Heq'. eexists _, _. split; [reflexivity|].
  pose proof (max_tracker_seeds_nonneg trackers) as Hmax.
  repeat split.
  - case_match eqn:H3; [apply Z.ltb_lt in H3|]; clear -Hown H3; lia.
  - intros H. apply Hseed in H.
    case_match eqn:H3; [apply Z.ltb_lt in H3|]; clear -H H3; lia.
  - cbn. lia.
  - by repeat constructor.
  - intros Hex. by rewrite (Hfail Hex).
Qed.

Lemma get_seeder_count_own_contribution_witness :
  let m := set_authenticated true (initial_machine empty_state) in
  ∃ trail,
    get_seeder_count unreachable (sample_torrent "a" "uploading" 0 0) m
      = (Ok 1%Z, extend true trail m).
Proof.
  intros m.
  destruct (get_seeder_count_own_contribution unreachable
              (sample_torrent "a" "uploading" 0 0) m eq_refl)
    as (c & trail & Heq & _ & _ & _ & _ & Hfail).
  exists trail. rewrite Heq. f_equal. f_equal.
  apply Hfail.
  assert (Hrun : get_seeder_count unreachable (sample_torrent "a" "uploading" 0 0) m
                 = (Ok 1%Z, extend true [(Trackers "a", Failed)] m)) by reflexivity.
  rewrite Hrun in Heq.
  assert (Hext : extend true [(Trackers "a", Failed)] m = extend true trail m)
    by congruence.
  apply extend_inj in Hext as [_ <-]. by left.
Defined.

(** ** Further properties: the cycle *)

Section CycleLemmas.
Variable cfg : config.
Variable E : env.



(** The cycle up to the checking loop, in terms of the listing. *)
Lemma list_due_shape m :
  ∃ listing a new,
    get_torrents E m = (Ok listing, extend a new m) ∧
    Forall (λ x, target x.1 = None) new ∧
    (is_nil listing = true →
       list_due cfg E m = (Ok [], advance 1 (extend a new m))) ∧
    (is_nil listing = false →
       a = true ∧
       ∃ r n,
         list_due cfg E m =
           (r,
            advance (S n)
              (add_log (cleanup_removed_torrents (state m) (map t_hash listing)).2
                 (set_state (cleanup_removed_torrents (state m) (map t_hash listing)).1.2
                    (extend true new m)))) ∧
         match r with
         | Ok due =>
             (∀ t, t ∈ due → t ∈ listing) ∧
             (∀ t, t ∈ listing →
                t ∈ due ∨
                is_Some (torrents (cleanup_removed_torrents (state m)
                                     (map t_hash listing)).1.2 !! t_hash t))
         | Raise e =>
             (e = ValueError ∨ e = OverflowError) ∧
             ∃ t, t ∈ listing ∧
                  ∀ now, needs_check (cleanup_removed_torrents (state m)
                                        (map t_hash listing)).1.2
                           now (t_hash t) (CHECK_INTERVAL_DAYS cfg) = Raise e
         end).
Proof.
  assert (Hget : ∃ listing a new,
             get_torrents E m = (Ok listing, extend a new m) ∧
             Forall (λ x, target x.1 = None) new ∧
             (is_nil listing = false → a = true)).
  { exec_gateway; eexists _, _, _;
      (split; [first [reflexivity | rewrite <- (extend_nil m) at 1; reflexivity]|]);
      (split; [by repeat constructor | first [done | by intros _]]). }
  destruct Hget as (listing & a & new & Hget & Hnew & Ha).
  exists listing, a, new. split; [done|]. split; [done|].
  assert (Hstart : ∀ A (k : list torrent → M A),
            (let* _ := now E in let* listing := get_torrents E in k listing) m =
            k listing (advance 1 (extend a new m))).
  { intros A k. unfold bind at 1. unfold now at 1. unfold bind at 1.
    by rewrite add_tick_advance, get_torrents_advance, Hget. }
  split.
  - intros Hnil. unfold list_due. by rewrite Hstart, Hnil.
  - intros Hnil. specialize (Ha Hnil) as ->. split; [done|].
    unfold list_due. rewrite Hstart, Hnil.
    unfold bind at 1. unfold sm_cleanup_removed_torrents, bind, get_state.
    cbn [advance extend state].
    destruct (cleanup_removed_torrents (state m) (map t_hash listing))
      as [[r st'] lines].
    cbn -[for_each advance].
    match goal with |- context [for_each listing _ _ ?m0] =>
      destruct (filter_loop cfg E listing [] 0 m0)
        as (n & [(e & t & -> & He & Hin & Hraise) | (due & s' & -> & Hin & Hall)]) end.
    + exists (Raise e), n. split.
      * f_equal. unfold advance, add_log, set_state, put_state, logging; cbn.
        f_equal. lia.
      * split; [done|]. by exists t.
    + exists (Ok due), n. split.
      * cbn. f_equal. unfold advance, add_log, set_state, put_state, logging; cbn.
        f_equal. lia.
      * by split.
Qed.

Lemma first_stop (f : nat → bool) (n : nat) :
  ∃ k, (k ≤ n)%nat ∧ (∀ i, (i < k)%nat → f i = false) ∧ ((k < n)%nat → f k = true).
Proof.
  induction n as [|n (k & Hk & Hgo & Hstop)].
  - exists 0. repeat split; lia.
  - destruct (decide (k < n)%nat) as [Hlt|Hge].
    + exists k. repeat split; [lia | done | intros _; by apply Hstop].
    + assert (k = n) as -> by lia.
      destruct (f n) eqn:Hf.
      * exists n. repeat split; [lia | done | done].
      * exists (S n). repeat split; [lia | | lia].
        intros i Hi. destruct (decide (i = n)) as [->|]; [done|]. apply Hgo. lia.
Qed.

Lemma dom_record_all counted : ∀ tick st,
  dom (torrents (record_all cfg E tick counted st)) =
    dom (torrents st) ∪ list_to_set (counted_hashes counted).
Proof.
  induction counted as [|[t c] counted IH]; intros tick st; cbn.
  - by rewrite union_empty_r_L.
  - rewrite IH. cbn. rewrite dom_insert_L.
    by rewrite (union_comm_L {[t_hash t]} (dom (torrents st))), <- union_assoc_L.
Qed.

(** Every way a cycle can go, for any behaviour of the flag. *)
Lemma run_check_cases m :
  ∃ listing a new,
    get_torrents E m = (Ok listing, extend a new m) ∧
    Forall (λ x, target x.1 = None) new ∧
    ((is_nil listing = true ∧
      run_check cfg E m = (Ok tt, advance 1 (extend a new m))) ∨
     (is_nil listing = false ∧
      ∃ r m1,
        list_due cfg E m = (r, m1) ∧
        authenticated m1 = true ∧
        state m1 = (cleanup_removed_torrents (state m) (map t_hash listing)).1.2 ∧
        exchanges m1 = exchanges m ++ new ∧
        writes m1 = writes m ∧ file m1 = file m ∧
        match r with
        | Raise e =>
            run_check cfg E m = (Raise e, m1) ∧
            (e = ValueError ∨ e = OverflowError) ∧
            ∃ t, t ∈ listing ∧
                 ∀ now, needs_check (state m1) now (t_hash t) (CHECK_INTERVAL_DAYS cfg)
                        = Raise e
        | Ok due =>
            (∀ t, t ∈ due → t ∈ listing) ∧
            (∀ t, t ∈ listing → t ∈ due ∨ is_Some (torrents (state m1) !! t_hash t)) ∧
            ((is_nil due = true ∧ run_check cfg E m = (Ok tt, m1)) ∨
             (is_nil due = false ∧
              ∃ k counts m2 m',
                (k ≤ length due)%nat ∧
                (∀ i, (i < k)%nat → shutdown_requested E i = false) ∧
                ((k < length due)%nat → shutdown_requested E k = true) ∧
                length counts = k ∧
                check_each cfg E due empty_buckets 0 m1 =
                  (Ok (bucket_all cfg (zip (take k due) counts) empty_buckets, k), m2) ∧
                authenticated m2 = true ∧
                state m2 =
                  record_all cfg E (ticks m1) (zip (take k due) counts) (state m1) ∧
                act_and_persist cfg E
                  (bucket_all cfg (zip (take k due) counts) empty_buckets) m2
                  = (Ok tt, m') ∧
                run_check cfg E m = (Ok tt, m') ∧
                state m' = state m2))
        end)).
Proof.
  destruct (list_due_shape m) as (listing & a & new & Hget & Hnew & Hempty & Hsome).
  exists listing, a, new. split; [done|]. split; [done|].
  destruct (is_nil listing) eqn:Hnil.
  - left. split; [done|]. by rewrite run_check_phases, (Hempty eq_refl).
  - right. split; [done|].
    destruct (Hsome eq_refl) as (-> & r & n & Hdue & Hr).
    eexists r, _. split; [exact Hdue|].
    do 5 (split; [reflexivity|]).
    destruct r as [due|e].
    + destruct Hr as [Hin Hall]. split; [done|]. split; [done|].
      destruct (is_nil due) eqn:Hd.
      * left. split; [done|]. by rewrite run_check_phases, Hdue, Hd.
      * right. split; [done|].
        destruct (first_stop (shutdown_requested E) (length due))
          as (k & Hk & Hgo & Hstop).
        match type of Hdue with _ = (_, ?m1) =>
          destruct (check_each_spec cfg E due empty_buckets 0 m1 k eq_refl Hk Hgo Hstop)
            as (counts & m2 & new2 & Hlen & Hloop & Ha2 & Hst & _) end.
        cbn [Nat.add] in Hloop.
        destruct (act_and_persist_session cfg E
                    (bucket_all cfg (zip (take k due) counts) empty_buckets) m2 Ha2)
          as (a' & new_p & new_r & m' & _ & Hact & Hs & _).
        exists k, counts, m2, m'.
        repeat (split; [done|]).
        split; [by rewrite run_check_phases, Hdue, Hd, Hloop | done].
    + destruct Hr as [He Ht]. split; [|by split].
      by rewrite run_check_phases, Hdue.
Qed.

End CycleLemmas.




(** X18: when the listing comes back empty (or fails), the cycle ends at
    once: it has read the clock once, for the opening report line, and
    [get_torrents] has acted on the session; the store is not purged and
    nothing is written. *)
Theorem run_check_empty_listing (cfg : config) (E : env) (m : machine) :
  (get_torrents E m).1 = Ok [] →
  ∃ a new,
    get_torrents E m = (Ok [], extend a new m) ∧
    run_check cfg E m = (Ok tt, advance 1 (extend a new m)).
Proof.
  intros Hempty.
  destruct (run_check_cases cfg E m)
    as (listing & a & new & Hget & _ & [[_ Hrun] | [Hnil _]]).
  - rewrite Hget in Hempty. cbn in Hempty. injection Hempty as ->. by exists a, new.
  - rewrite Hget in Hempty. cbn in Hempty. injection Hempty as ->. discriminate Hnil.
Qed.

Lemma run_check_empty_listing_witness :
  let m := initial_machine (update_torrent empty_state 5 "gone" "G" 1 "CRITICAL") in
  ∃ a new,
    run_check default_config unreachable m = (Ok tt, advance 1 (extend a new m)) ∧
    ticks (advance 1 (extend a new m)) = 1 ∧
    is_Some (torrents (state (advance 1 (extend a new m))) !! "gone").
Proof.
  intros m.
  destruct (run_check_empty_listing default_config unreachable m eq_refl)
    as (a & new & _ & Hrun).
  exists a, new. split; [exact Hrun|]. split; [reflexivity|].
  cbn. rewrite lookup_insert_eq. by eexists.
Defined.

(** X19: when no listed torrent is due, the cycle ends after the purge:
    nothing is written to the state file and no request about any torrent
    is sent. *)
Theorem run_check_nothing_due (cfg : config) (E : env) (m m1 : machine) :
  list_due cfg E m = (Ok [], m1) →
  run_check cfg E m = (Ok tt, m1) ∧
  writes m1 = writes m ∧ file m1 = file m ∧
  ∃ new, exchanges m1 = exchanges m ++ new ∧ Forall (λ x, target x.1 = None) new.
Proof.
  intros Hdue.
  destruct (list_due_shape cfg E m) as (listing & a & new & Hget & Hnew & Hempty & Hsome).
  destruct (is_nil listing) eqn:Hnil.
  - rewrite (Hempty eq_refl) in Hdue. injection Hdue as <-.
    split; [by rewrite run_check_phases, (Hempty eq_refl)|].
    split; [done|]. split; [done|]. by exists new.
  - destruct (Hsome eq_refl) as (-> & r & n & Hdue' & _).
    rewrite Hdue' in Hdue. injection Hdue as -> <-.
    split; [by rewrite run_check_phases, Hdue'|].
    split; [done|]. split; [done|]. by exists new.
Qed.

Lemma recently_checked_nothing_due :
  let st := update_torrent empty_state 0 "A" "A" 9 "HEALTHY" in
  let m := initial_machine st in
  ∃ m1, list_due default_config (serving [sample_torrent "A" "uploading" 9 0] []) m
        = (Ok [], m1).
Proof. eexists. vm_compute. reflexivity. Qed.

Lemma run_check_nothing_due_witness :
  let st := update_torrent empty_state 0 "A" "A" 9 "HEALTHY" in
  let m := initial_machine st in
  ∃ m1,
    run_check default_config (serving [sample_torrent "A" "uploading" 9 0] []) m
      = (Ok tt, m1) ∧
    writes m1 = [] ∧ file m1 = None.
Proof.
  intros st m. destruct recently_checked_nothing_due as (m1 & Hdue).
  destruct (run_check_nothing_due default_config _ m m1 Hdue) as (Hrun & Hw & Hf & _).
  by exists m1.
Defined.

(** X20: after a cycle with a non-empty listing, however it ends, every
    entry of the store belongs to a listed torrent; and when the cycle
    returned and the flag was never raised, every listed torrent has an
    entry. *)
Theorem store_keys_follow_listing (cfg : config) (E : env) (m m0 : machine)
    (listing : list torrent) :
  get_torrents E m = (Ok listing, m0) →
  is_nil listing = false →
  ∃ r m',
    run_check cfg E m = (r, m') ∧
    (∀ h, is_Some (torrents (state m') !! h) → h ∈ map t_hash listing) ∧
    (r = Ok tt →
     (∀ i, shutdown_requested E i = false) →
     ∀ h, h ∈ map t_hash listing → is_Some (torrents (state m') !! h)).
Proof.
  intros Hget0 Hnil0.
  destruct (run_check_cases cfg E m)
    as (listing' & a & new & Hget & _ & [[Hnil _] | [_ Hrest]]).
  { rewrite Hget in Hget0. injection Hget0 as -> _. congruence. }
  rewrite Hget in Hget0. injection Hget0 as -> _.
  destruct Hrest as (r & m1 & _ & _ & Hst1 & _ & _ & _ & Hr).
  assert (Hold : ∀ h, is_Some (torrents (state m1) !! h) → h ∈ map t_hash listing).
  { intros h. rewrite Hst1, cleanup_lookup. case_decide; [done|]. by intros [? ?]. }
  destruct r as [due|e].
  2:{ destruct Hr as (Hrun & _). exists (Raise e), m1.
      split; [done|]. split; [done|]. by intros [=]. }
  destruct Hr as (Hin & Hall & Hcase).
  destruct Hcase as [[Hd Hrun] | [Hd Hloop]].
  - exists (Ok tt), m1. split; [done|]. split; [done|].
    intros _ _ h (t & -> & Ht)%list_elem_of_fmap.
    destruct (Hall t Ht) as [Hdue|He]; [|done].
    destruct due; [by apply elem_of_nil in Hdue | discriminate Hd].
  - destruct Hloop as (k & counts & m2 & m' & Hk & Hgo & Hstop & Hlen & _ & _ & Hst2
                       & _ & Hrun & Hs).
    assert (Hlen' : length counts = length (take k due)).
    { rewrite length_take_le; lia. }
    pose proof (counted_hashes_zip (take k due) counts Hlen') as Hhashes.
    assert (Hkeys : ∀ h, is_Some (torrents (state m') !! h) ↔
                         is_Some (torrents (state m1) !! h) ∨ h ∈ map t_hash (take k due)).
    { intros h. rewrite Hs, Hst2, <- !elem_of_dom, dom_record_all, Hhashes.
      rewrite elem_of_union, elem_of_list_to_set. done. }
    exists (Ok tt), m'. split; [done|]. split.
    + intros h [Hh|Hh]%Hkeys; [by apply Hold|].
      apply list_elem_of_fmap in Hh as (t & -> & Ht).
      apply list_elem_of_fmap. exists t. split; [done|].
      apply Hin. apply elem_of_take in Ht as (i & Hi & _).
      by eapply list_elem_of_lookup_2.
    + intros _ Hnever h (t & -> & Ht)%list_elem_of_fmap. apply Hkeys.
      assert (k = length due) as ->.
      { destruct (decide (k < length due)%nat) as [Hlt|]; [|lia].
        specialize (Hstop Hlt). rewrite Hnever in Hstop. discriminate. }
      rewrite firstn_all.
      destruct (Hall t Ht) as [Hdue|He]; [right | by left].
      apply list_elem_of_fmap. by exists t.
Qed.

Lemma store_keys_follow_listing_witness :
  ∃ m',
    run_check default_config (serving three_tiers []) (initial_machine empty_state)
      = (Ok tt, m') ∧
    is_Some (torrents (state m') !! "C") ∧
    is_Some (torrents (state m') !! "R") ∧
    is_Some (torrents (state m') !! "L").
Proof.
  assert (Hget : ∃ m0, get_torrents (serving three_tiers [])
                         (initial_machine empty_state) = (Ok three_tiers, m0))
    by (eexists; reflexivity).
  destruct Hget as (m0 & Hget).
  destruct (store_keys_follow_listing default_config _ _ _ _ Hget eq_refl)
    as (r & m' & Hrun & _ & Hall).
  assert (Hr : (run_check default_config (serving three_tiers [])
                  (initial_machine empty_state)).1 = Ok tt) by (vm_compute; reflexivity).
  rewrite Hrun in Hr. cbn in Hr. subst r.
  exists m'. split; [exact Hrun|].
  assert (Hnever : ∀ i, shutdown_requested (serving three_tiers []) i = false)
    by reflexivity.
  split; [|split]; apply (Hall eq_refl Hnever); cbn;
    repeat first [apply list_elem_of_here | apply list_elem_of_further].
Defined.

Section Readings.
Variable cfg : config.
Variable E : env.

Lemma filter_loop_ticks l : ∀ acc s m r m',
  for_each l (filter_step cfg E) (acc, s) m = (Ok r, m') →
  ticks m' = ticks m + stored_times (state m) l.
Proof.
  induction l as [|t l IH]; intros acc s m r m'; cbn [for_each].
  - unfold ret. intros [= _ <-]. unfold stored_times. cbn. lia.
  - unfold bind. unfold filter_step at 1. unfold bind.
    rewrite sm_needs_check_eq. unfold stored_times.
    rewrite filter_cons.
    destruct (get_last_checked (state m) (t_hash t)) as [T|] eqn:Hl.
    + rewrite decide_True by done.
      destruct (needs_check _ _ _ _) as [due|e]; [|discriminate].
      destruct due; unfold ret; intros Hrest; apply IH in Hrest;
        rewrite Hrest; unfold stored_times; cbn; lia.
    + rewrite decide_False by (by intros [? ?]).
      unfold ret. intros Hrest. by apply IH in Hrest.
Qed.

Lemma stored_times_cleanup st listing :
  stored_times (cleanup_removed_torrents st (map t_hash listing)).1.2 listing =
  stored_times st listing.
Proof.
  assert (Hagree : ∀ st' l,
            (∀ t, t ∈ l →
               get_last_checked st' (t_hash t) = get_last_checked st (t_hash t)) →
            stored_times st' l = stored_times st l).
  { intros st' l. unfold stored_times.
    induction l as [|t l IH]; intros Hsame; [done|].
    rewrite !filter_cons, (Hsame t) by (by left).
    case_decide; cbn; rewrite IH; try done;
      intros t' Ht'; apply Hsame; by right. }
  apply Hagree. intros t Ht. unfold get_last_checked.
  rewrite cleanup_lookup, decide_True; [done|].
  apply list_elem_of_fmap. by exists t.
Qed.

Lemma list_due_ticks m m0 m1 listing due :
  get_torrents E m = (Ok listing, m0) →
  list_due cfg E m = (Ok due, m1) →
  ticks m1 = ticks m + 1 + stored_times (state m) listing.
Proof.
  intros Hget Hdue.
  destruct (get_torrents_session E m) as (listing' & a & new & Hget' & Ha & _).
  rewrite Hget in Hget'. injection Hget' as <- ->.
  revert Hdue. unfold list_due. unfold bind at 1. unfold now at 1. unfold bind at 1.
  rewrite add_tick_advance, get_torrents_advance, Hget. cbn [fst snd].
  destruct (is_nil listing) eqn:Hnil.
  - apply is_nil_true in Hnil as ->. unfold ret. intros [= _ <-].
    unfold stored_times. cbn. lia.
  - unfold bind at 1. unfold sm_cleanup_removed_torrents, bind, get_state.
    cbn [advance extend state].
    pose proof (stored_times_cleanup (state m) listing) as Hsame.
    destruct (cleanup_removed_torrents (state m) (map t_hash listing))
      as [[r st'] lines]. cbn [fst snd] in Hsame.
    cbn -[for_each advance].
    destruct (for_each listing _ _ _) as [[split|e] m2] eqn:Hloop; [|discriminate].
    destruct split as [acc skipped].
    apply filter_loop_ticks in Hloop. cbn in Hloop.
    unfold ret. intros [= _ <-]. rewrite Hloop, Hsame. lia.
Qed.

Lemma act_and_persist_ticks b m m' :
  authenticated m = true →
  act_and_persist cfg E b m = (Ok tt, m') →
  ticks m' = S (ticks m).
Proof.
  intros Hm.
  destruct (apply_priorities_session cfg E b 0 m Hm) as (a & new_p & Hp & _).
  destruct (apply_resumes_session cfg E b a (extend true new_p m) eq_refl)
    as (a' & new_r & Hr & _).
  unfold act_and_persist, bind. rewrite Hp, Hr. by intros [= <-].
Qed.

End Readings.

(** X24: the readings of the clock in a cycle that is not interrupted: one
    for the opening report line; one for each listed torrent that has a
    last-checked time in the store, when the due torrents are selected; and,
    when some torrent is due, one for each due torrent, when it is recorded,
    and one for the closing report line. *)
Theorem run_check_clock_readings (cfg : config) (E : env) (m m0 m1 : machine)
    (listing due : list torrent) :
  get_torrents E m = (Ok listing, m0) →
  list_due cfg E m = (Ok due, m1) →
  (∀ i, shutdown_requested E i = false) →
  ∃ m',
    run_check cfg E m = (Ok tt, m') ∧
    ticks m' =
      ticks m + 1 + stored_times (state m) listing +
      (if is_nil due then 0 else length due + 1).
Proof.
  intros Hget Hdue Hnever.
  pose proof (list_due_ticks cfg E m m0 m1 listing due Hget Hdue) as Ht1.
  destruct (is_nil due) eqn:Hnil.
  - exists m1. split; [by rewrite run_check_phases, Hdue, Hnil | lia].
  - destruct (list_due_spec cfg E m due m1 Hdue) as (Ha1 & _ & _).
    specialize (Ha1 Hnil).
    destruct (check_each_spec cfg E due empty_buckets 0 m1 (length due) Ha1)
      as (counts & m2 & new & _ & Hloop & Ha2 & _ & Ht2 & _);
      [done | by intros | lia |].
    destruct (act_and_persist_session cfg E
                (bucket_all cfg (zip (take (length due) due) counts) empty_buckets)
                m2 Ha2)
      as (a & new_p & new_r & m' & _ & Hact & _).
    pose proof (act_and_persist_ticks cfg E _ m2 m' Ha2 Hact) as Ht3.
    exists m'. split; [by rewrite run_check_phases, Hdue, Hnil, Hloop | lia].
Qed.

Lemma one_of_two_due :
  let m := initial_machine (update_torrent empty_state 0 "A" "A" 9 "HEALTHY") in
  let E := serving [sample_torrent "A" "uploading" 9 0;
                    sample_torrent "B" "uploading" 9 0] [] in
  ∃ m1, list_due default_config E m = (Ok [sample_torrent "B" "uploading" 9 0], m1).
Proof. eexists. vm_compute. reflexivity. Qed.

Lemma run_check_clock_readings_witness :
  let m := initial_machine (update_torrent empty_state 0 "A" "A" 9 "HEALTHY") in
  let E := serving [sample_torrent "A" "uploading" 9 0;
                    sample_torrent "B" "uploading" 9 0] [] in
  ∃ m', run_check default_config E m = (Ok tt, m') ∧ ticks m' = 4.
Proof.
  intros m E. destruct one_of_two_due as (m1 & Hdue).
  assert (Hget : ∃ m0, get_torrents E m =
                         (Ok [sample_torrent "A" "uploading" 9 0;
                              sample_torrent "B" "uploading" 9 0], m0))
    by (eexists; reflexivity).
  destruct Hget as (m0 & Hget).
  destruct (run_check_clock_readings default_config E m m0 m1 _ _ Hget Hdue)
    as (m' & Hrun & Ht); [done|].
  exists m'. split; [exact Hrun|]. rewrite Ht. reflexivity.
Defined.

Section Checkpoints.
Variable cfg : config.
Variable E : env.

Lemma div_50_succ n :
  (S n / 50 = n / 50 + if (S n mod 50 =? 0) then 1 else 0)%nat.
Proof.
  pose proof (Nat.div_mod_eq n 50) as H1.
  pose proof (Nat.div_mod_eq (S n) 50) as H2.
  pose proof (Nat.mod_upper_bound n 50 ltac:(lia)) as H3.
  pose proof (Nat.mod_upper_bound (S n) 50 ltac:(lia)) as H4.
  destruct (S n mod 50 =? 0)%nat eqn:Hm;
    [apply Nat.eqb_eq in Hm | apply Nat.eqb_neq in Hm]; lia.
Qed.

(** One turn of the loop, with the writes it makes. *)
Lemma check_each_turn_writes t rest b n m :
  authenticated m = true →
  shutdown_requested E n = false →
  ∃ b1 m1,
    check_each cfg E (t :: rest) b n m = check_each cfg E rest b1 (S n) m1 ∧
    authenticated m1 = true ∧
    length (writes m1) =
      length (writes m) + (if (S n mod 50 =? 0)%nat then 1 else 0).
Proof.
  intros Hm Hgo.
  destruct (get_seeder_count_session E t m Hm) as (c & new & Hc & _).
  cbn [check_each]. rewrite Hgo. unfold bind at 1. rewrite Hc.
  unfold bind at 1. cbn -[Nat.modulo check_each].
  destruct (S n mod 50 =? 0)%nat.
  - eexists _, _. split; [reflexivity|]. split; [done|].
    cbn. rewrite length_app. cbn. lia.
  - eexists _, _. split; [reflexivity|]. split; [done|]. cbn. lia.
Qed.

Lemma check_each_writes todo : ∀ b n m,
  authenticated m = true →
  (∀ i, shutdown_requested E i = false) →
  ∃ r m',
    check_each cfg E todo b n m = (Ok r, m') ∧
    authenticated m' = true ∧
    length (writes m') = length (writes m) + (n + length todo) / 50 - n / 50.
Proof.
  induction todo as [|t rest IH]; intros b n m Hm Hnever.
  - exists (b, n), m. cbn. rewrite Nat.add_0_r. repeat split; [done|]. lia.
  - destruct (check_each_turn_writes t rest b n m Hm (Hnever n))
      as (b1 & m1 & -> & Ha & Hw).
    destruct (IH b1 (S n) m1 Ha Hnever) as (r & m' & -> & Ha' & Hw').
    exists r, m'. split; [done|]. split; [done|].
    rewrite Hw', Hw. cbn [length].
    replace (S n + length rest) with (n + S (length rest)) by lia.
    pose proof (div_50_succ n) as Hdiv.
    assert (Hmono : (S n / 50 ≤ (n + S (length rest)) / 50)%nat).
    { apply Nat.Div0.div_le_mono. lia. }
    destruct (S n mod 50 =? 0)%nat; lia.
Qed.

End Checkpoints.

(** X21: in a cycle that is not interrupted the state file is written
    once after every 50th checked torrent and once at the end: with [n] due
    torrents, [n / 50 + 1] times. *)
Theorem run_check_checkpoints (cfg : config) (E : env) (m m1 : machine)
    (due : list torrent) :
  list_due cfg E m = (Ok due, m1) →
  is_nil due = false →
  (∀ i, shutdown_requested E i = false) →
  ∃ m',
    run_check cfg E m = (Ok tt, m') ∧
    length (writes m') = length (writes m) + length due / 50 + 1.
Proof.
  intros Hdue Hnil Hnever.
  destruct (list_due_spec cfg E m due m1 Hdue) as (Ha1 & _ & _).
  specialize (Ha1 Hnil).
  assert (Hw1 : writes m1 = writes m).
  { destruct (list_due_shape cfg E m) as (listing & a & new & _ & _ & Hempty & Hsome).
    destruct (is_nil listing) eqn:Hl.
    - rewrite (Hempty eq_refl) in Hdue. by injection Hdue as _ <-.
    - destruct (Hsome eq_refl) as (_ & r & n & Hdue' & _).
      rewrite Hdue' in Hdue. by injection Hdue as _ <-. }
  destruct (check_each_writes cfg E due empty_buckets 0 m1 Ha1 Hnever)
    as ([b n] & m2 & Hloop & Ha2 & Hw2).
  destruct (act_and_persist_session cfg E b m2 Ha2)
    as (a' & new_p & new_r & m' & _ & Hact & _ & _ & _ & Hw & _).
  exists m'. split; [by rewrite run_check_phases, Hdue, Hnil, Hloop|].
  rewrite Hw, length_app, Hw2, Hw1. cbn. lia.
Qed.

Lemma fifty_torrents_due :
  ∃ m1, list_due default_config (serving fifty_torrents []) (initial_machine empty_state)
        = (Ok fifty_torrents, m1).
Proof. eexists. vm_compute. reflexivity. Qed.

Lemma run_check_checkpoints_witness :
  ∃ m',
    run_check default_config (serving fifty_torrents []) (initial_machine empty_state)
      = (Ok tt, m') ∧
    length (writes m') = 2.
Proof.
  destruct fifty_torrents_due as (m1 & Hdue).
  destruct (run_check_checkpoints default_config _ _ m1 fifty_torrents Hdue)
    as (m' & Hrun & Hw); [reflexivity | reflexivity |].
  exists m'. split; [exact Hrun|]. rewrite Hw. reflexivity.
Defined.

(** ** Further properties: the action phase *)

Section Actions.
Variable cfg : config.
Variable E : env.

Lemma prefix_about t (rs full : list request) :
  rs `prefix_of` full → Forall (about t) full → Forall (about t) rs.
Proof. intros [k ->] Hfull. by apply Forall_app in Hfull as [? _]. Qed.

Lemma priority_step_about (op : string → M bool) (full : string → list request) t a m :
  (∀ h, runs_steps E (op h) (full h)) →
  Forall (about t) (full (ti_hash t)) →
  authenticated m = true →
  ∃ a' new, priority_step op t a m = (Ok a', extend true new m) ∧
            Forall (about t) (requests new).
Proof.
  intros Hop Hfull Hm.
  unfold priority_step, bind. rewrite (Hop (ti_hash t) m Hm). cbn -[sent].
  eexists _, _. split; [reflexivity|].
  eapply prefix_about; [apply sent_prefix | done].
Qed.

Lemma priority_loop_about (op : string → M bool) (full : string → list request) l a m :
  (∀ h, runs_steps E (op h) (full h)) →
  (∀ t, Forall (about t) (full (ti_hash t))) →
  authenticated m = true →
  ∃ a' new, for_each l (priority_step op) a m = (Ok a', extend true new m) ∧
            Forall (λ r, ∃ t, t ∈ l ∧ about t r) (requests new).
Proof.
  intros Hop Hfull Hm.
  destruct (for_each_session (λ t new, Forall (about t) (requests new))
              (priority_step op) l) with (s := a) (m := m)
    as (a' & news & Heq & HR); [|done|].
  { intros t s m0 Hm0. by eapply priority_step_about. }
  exists a', (concat news). split; [done|].
  clear Heq. induction HR as [|t new l news Ht _ IH]; [constructor|].
  cbn. rewrite requests_app. apply Forall_app. split.
  - eapply Forall_impl; [exact Ht|]. intros r Hr. exists t. split; [by left | done].
  - eapply Forall_impl; [exact IH|]. intros r (t' & Ht' & Hr).
    exists t'. split; [by right | done].
Qed.

Lemma apply_priorities_about b a m :
  authenticated m = true →
  ∃ a' new,
    apply_priorities cfg E b a m = (Ok a', extend true new m) ∧
    Forall (λ r, ∃ t, t ∈ bucketed b ∧ about t r) (requests new) ∧
    (SET_PRIORITIES cfg = false → new = []).
Proof.
  intros Hm. unfold apply_priorities.
  destruct (SET_PRIORITIES cfg && _) eqn:Hcond.
  - destruct (priority_loop_about (set_low_priority E)
                (λ h, [TopPrio h; DecreasePrio h; DecreasePrio h])
                (low_torrents b) a m) as (a1 & n1 & H1 & R1); [| |done|].
    { intros h. apply set_low_priority_steps. }
    { intros t. by repeat constructor. }
    unfold bind. rewrite H1.
    destruct (priority_loop_about (set_rare_priority E)
                (λ h, [TopPrio h; DecreasePrio h])
                (rare_torrents b) a1 (extend true n1 m)) as (a2 & n2 & H2 & R2); [| |done|].
    { intros h. apply set_rare_priority_steps. }
    { intros t. by repeat constructor. }
    rewrite H2.
    destruct (priority_loop_about (set_top_priority E) (λ h, [TopPrio h])
                (critical_torrents b) a2 (extend true n2 (extend true n1 m)))
      as (a3 & n3 & H3 & R3); [| |done|].
    { intros h. apply set_top_priority_steps. }
    { intros t. by repeat constructor. }
    rewrite H3, !extend_extend. eexists _, _. split; [reflexivity|]. split.
    + rewrite !requests_app, !Forall_app. unfold bucketed.
      repeat split; (eapply Forall_impl; [eassumption|]);
        intros r (t & Ht & Hr); exists t; (split; [|done]);
        rewrite !elem_of_app; auto.
    + intros Hoff. rewrite Hoff in Hcond. discriminate Hcond.
  - exists a, []. split; [unfold ret; by rewrite <- Hm, extend_nil|].
    split; [constructor | done].
Qed.

End Actions.

(** X22: the action phase sends, on an established session, first priority
    calls and then resume calls, and then writes the store.  Every priority
    call is about a bucketed torrent, and none is sent when SET_PRIORITIES
    is off; the resume calls are exactly one for each paused or stopped RARE
    torrent when RESUME_RARE is on, then one for each paused or stopped
    CRITICAL torrent when RESUME_CRITICAL is on; a LOW torrent is never
    resumed. *)
Theorem action_phase_requests (cfg : config) (E : env) (b : buckets) (m : machine) :
  authenticated m = true →
  ∃ m' new_p new_r,
    act_and_persist cfg E b m = (Ok tt, m') ∧
    exchanges m' = exchanges m ++ new_p ++ new_r ∧
    Forall (λ r, ∃ t, t ∈ bucketed b ∧ about t r) (requests new_p) ∧
    (SET_PRIORITIES cfg = false → new_p = []) ∧
    requests new_r =
      (if RESUME_RARE cfg then resume_requests (rare_torrents b) else []) ++
      (if RESUME_CRITICAL cfg then resume_requests (critical_torrents b) else []).
Proof.
  intros Hm.
  destruct (act_and_persist_session cfg E b m Hm)
    as (a & new_p & new_r & m' & Hp & Hact & _ & Hx & Hr & _).
  destruct (apply_priorities_about cfg E b 0 m Hm) as (a' & new_p' & Hp' & Habout & Hoff).
  rewrite Hp in Hp'.
  assert (Hext : extend true new_p m = extend true new_p' m) by congruence.
  apply extend_inj in Hext as [_ <-].
  by exists m', new_p, new_r.
Qed.

Lemma action_phase_requests_witness :
  let m := set_authenticated true (initial_machine empty_state) in
  let b := {| critical_torrents :=
                [make_torrent_info (sample_torrent "c" "pausedDL" 1 0) 1];
              rare_torrents := [];
              low_torrents := [make_torrent_info (sample_torrent "l" "pausedDL" 4 0) 4] |} in
  ∃ m' new_p new_r,
    act_and_persist default_config (serving [] []) b m = (Ok tt, m') ∧
    exchanges m' = exchanges m ++ new_p ++ new_r ∧
    requests new_r = [Resume "c"].
Proof.
  intros m b.
  destruct (action_phase_requests default_config (serving [] []) b m eq_refl)
    as (m' & new_p & new_r & Hact & Hx & _ & _ & Hr).
  by exists m', new_p, new_r.
Defined.

(** ** Further properties: the buckets *)

Lemma infos_of_tier_cons cfg tier (t : torrent) (c : Z) counted :
  infos_of_tier cfg tier ((t, c) :: counted) =
    if decide (classify_torrent cfg c = tier)
    then make_torrent_info t c :: infos_of_tier cfg tier counted
    else infos_of_tier cfg tier counted.
Proof.
  unfold infos_of_tier. rewrite filter_cons. cbn. by case_decide.
Qed.

Lemma bucket_all_by_tier cfg counted : ∀ b,
  critical_torrents (bucket_all cfg counted b) =
    critical_torrents b ++ infos_of_tier cfg "CRITICAL" counted ∧
  rare_torrents (bucket_all cfg counted b) =
    rare_torrents b ++ infos_of_tier cfg "RARE" counted ∧
  low_torrents (bucket_all cfg counted b) =
    low_torrents b ++ infos_of_tier cfg "LOW" counted.
Proof.
  induction counted as [|[t c] counted IH]; intros b.
  - cbn. by rewrite !app_nil_r.
  - change (bucket_all cfg ((t, c) :: counted) b)
      with (bucket_all cfg counted
              (add_to_bucket (classify_torrent cfg c) (make_torrent_info t c) b)).
    destruct (IH (add_to_bucket (classify_torrent cfg c) (make_torrent_info t c) b))
      as (-> & -> & ->).
    rewrite !infos_of_tier_cons.
    destruct (classify_torrent_cases cfg c) as [H|[H|[H|H]]]; rewrite H; cbn;
      by rewrite <- ?app_assoc.
Qed.

(** X23: the buckets the loop returns hold, each in listing order, the
    examined torrents whose seeder estimate falls in that tier, and nothing
    else: a HEALTHY torrent is in no bucket, and no torrent is in two.  The
    estimate of a torrent is what the estimator gives after the exchanges
    made for the torrents before it; the same estimates are written to the
    store. *)
Theorem loop_buckets_by_tier (cfg : config) (E : env) (todo : list torrent)
    (m : machine) (k : nat) :
  authenticated m = true →
  (k ≤ length todo)%nat →
  (∀ i, (i < k)%nat → shutdown_requested E i = false) →
  ((k < length todo)%nat → shutdown_requested E k = true) →
  let counted := zip (take k todo) (estimates E (take k todo) (exchanges m)) in
  ∃ b m',
    check_each cfg E todo empty_buckets 0 m = (Ok (b, k), m') ∧
    critical_torrents b = infos_of_tier cfg "CRITICAL" counted ∧
    rare_torrents b = infos_of_tier cfg "RARE" counted ∧
    low_torrents b = infos_of_tier cfg "LOW" counted ∧
    state m' = record_all cfg E (ticks m) counted (state m).
Proof.
  intros Hm Hk Hgo Hstop counted.
  destruct (check_each_spec cfg E todo empty_buckets 0 m k Hm Hk Hgo Hstop)
    as (counts & m' & new & Hlen & Hloop & _ & Hst & _ & _ & _ & Hcounts).
  subst counts. fold counted in Hloop, Hst.
  destruct (bucket_all_by_tier cfg counted empty_buckets) as (Hc & Hr & Hl).
  exists (bucket_all cfg counted empty_buckets), m'.
  by repeat split.
Qed.

Lemma loop_buckets_by_tier_witness :
  let m := set_authenticated true (initial_machine empty_state) in
  let E := serving [] [{| tr_num_seeds := Some 2%Z |}] in
  let todo := [sample_torrent "C" "downloading" 1 0;
               sample_torrent "R" "downloading" 0 0;
               sample_torrent "L" "uploading" 0 3;
               sample_torrent "H" "downloading" 7 0] in
  ∃ b m',
    check_each default_config E todo empty_buckets 0 m = (Ok (b, 4), m') ∧
    ti_hash <$> critical_torrents b = ["C"] ∧
    ti_hash <$> rare_torrents b = ["R"] ∧
    ti_hash <$> low_torrents b = ["L"] ∧
    ti_seeders <$> low_torrents b = [4%Z].
Proof.
  intros m E todo.
  destruct (loop_buckets_by_tier default_config E todo m 4)
    as (b & m' & Hloop & Hc & Hr & Hl & _);
    [reflexivity | cbn; lia | by intros | cbn; lia |].
  exists b, m'. split; [exact Hloop|].
  rewrite Hc, Hr, Hl. by repeat split.
Defined.
